(** * queuectl: the job lifecycle engine

    A shallow embedding of the job store (internal/store), the worker's
    failure handling (internal/worker) and the enqueue, config and dlq
    commands (cmd), followed by the properties of the lifecycle that the
    specification states.

    Conventions of the embedding.
    - Go's [int] and [time.Duration] are 64-bit: they are integers of [Z]
      with the wrap-around written out ([wrap64]).
    - A [time.Time] is its number of nanoseconds since the Unix epoch; every
      read of the clock ([time.Now()]) is an explicit argument.
    - [float64] is Rocq's primitive binary64 float.
    - The jobs table is the list of its rows in table order; a statement of
      SQL is one function on that list.  The functions of [Store] are the
      calls as the database runs them, with the results the code itself
      distinguishes (no row, constraint violation).  [SQLiteStore] has the
      calls that workers make and the two queries that iterate over rows
      with what the database answers as an argument: it runs a statement or
      refuses it, and a statement refused changes nothing. *)

From Stdlib Require Import ZArith List String Ascii Bool Lia.
From Stdlib Require Import Uint63 PrimFloat SpecFloat FloatOps.
From Stdlib Require Import Sorted Permutation.
Import ListNotations.

Open Scope Z_scope.

(* ================================================================== *)
(** * Go's integers, floats and the library calls the source makes     *)
(* ================================================================== *)

Module Go.

(** [int], [int64] and [time.Duration] on a 64-bit platform. *)
Definition min_int64 : Z := - 2 ^ 63.
Definition max_int64 : Z := 2 ^ 63 - 1.

Definition is_int (z : Z) : Prop := min_int64 <= z <= max_int64.

Definition is_intb (z : Z) : bool := (min_int64 <=? z) && (z <=? max_int64).

(** Two's complement wrap-around of a 64-bit result. *)
Definition wrap64 (z : Z) : Z := (z + 2 ^ 63) mod 2 ^ 64 - 2 ^ 63.

Definition int_add (a b : Z) : Z := wrap64 (a + b).
Definition int_mul (a b : Z) : Z := wrap64 (a * b).

(** [time.Time] as nanoseconds since the epoch, [time.Duration] as
    nanoseconds. *)
Definition Time := Z.
Definition Duration := Z.

Definition Second : Duration := 1000000000.

(** [t.Add(d)] *)
Definition Time_Add (t : Time) (d : Duration) : Time := t + d.

Definition float64 := PrimFloat.float.

(** [float64(n)] for an [int] [n]: the nearest binary64 value. *)
Definition float64_of_int (n : Z) : float64 :=
  if n =? min_int64 then PrimFloat.opp (Z.ldexp PrimFloat.one 63)
  else if n <? 0 then PrimFloat.opp (PrimFloat.of_uint63 (Uint63.of_Z (- n)))
  else PrimFloat.of_uint63 (Uint63.of_Z n).

(** The integer a finite float truncates to (toward zero); [None] for NaN
    and the infinities. *)
Definition trunc_float (f : float64) : option Z :=
  match Prim2SF f with
  | S754_zero _ => Some 0
  | S754_finite s m e =>
      let a := if 0 <=? e then Z.pos m * 2 ^ e else Z.pos m / 2 ^ (- e) in
      Some (if s then - a else a)
  | S754_infinity _ | S754_nan => None
  end.

(** [time.Duration(f)], the conversion of a float to a 64-bit integer:
    truncation toward zero.  Where the value has no 64-bit
    representation Go leaves the result to the implementation; this is
    the amd64 one (CVTTSD2SQ's integer indefinite, the minimum). *)
Definition int64_of_float (f : float64) : Z :=
  match trunc_float f with
  | Some v => if is_intb v then v else min_int64
  | None => min_int64
  end.

(** The exact rational value of a finite float, as numerator and a power
    of two denominator: used to compare a result of the code with the
    real number a formula denotes. *)
Definition float_ratio (f : float64) : option (Z * Z) :=
  match Prim2SF f with
  | S754_zero _ => Some (0, 1)
  | S754_finite s m e =>
      let n := if s then Z.neg m else Z.pos m in
      Some (if 0 <=? e then (n * 2 ^ e, 1) else (n, 2 ^ (- e)))
  | S754_infinity _ | S754_nan => None
  end.

(** ** [math.Pow]

    The standard library's algorithm (math/pow.go): the special cases in
    their order, then binary exponentiation by the integral part of [|y|]
    on the [Frexp] decomposition of [x], and [Ldexp] at the end.  The worker
    passes the float of an [int] for [y].  For a [y] with a fractional part
    other than a half Go goes through [Exp] and [Log], which this model
    does not have: there the result here is NaN (Go's own result when [x]
    is negative). *)

Definition isOddInt (y : float64) : bool :=
  if PrimFloat.leb (Z.ldexp PrimFloat.one 53) (PrimFloat.abs y) then false
  else
    match trunc_float y with
    | Some v => PrimFloat.eqb (float64_of_int v) y && Z.odd v
    | None => false
    end.

(** The loop [for i := int64(yi); i != 0; i >>= 1], by the bits of [i]
    from the lowest. *)
Fixpoint pow_loop (i : positive) (a1 : float64) (ae : Z) (x1 : float64) (xe : Z)
  : float64 * Z :=
  if (xe <? - 4096) || (4096 <? xe) then (a1, ae + xe)
  else
    let '(a1, ae) :=
      match i with
      | xO _ => (a1, ae)
      | _ => (PrimFloat.mul a1 x1, ae + xe)
      end in
    let x1 := PrimFloat.mul x1 x1 in
    let xe := 2 * xe in
    let '(x1, xe) :=
      if PrimFloat.ltb x1 0.5%float
      then (PrimFloat.add x1 x1, xe - 1) else (x1, xe) in
    match i with
    | xH => (a1, ae)
    | xO p | xI p => pow_loop p a1 ae x1 xe
    end.

Definition Pow (x y : float64) : float64 :=
  if PrimFloat.eqb y 0%float || PrimFloat.eqb x 1%float then 1%float
  else if PrimFloat.eqb y 1%float then x
  else if PrimFloat.is_nan x || PrimFloat.is_nan y then PrimFloat.nan
  else if PrimFloat.eqb x 0%float then
    if PrimFloat.ltb y 0%float then
      if PrimFloat.get_sign x && isOddInt y
      then PrimFloat.neg_infinity else PrimFloat.infinity
    else
      if PrimFloat.get_sign x && isOddInt y then x else 0%float
  else if PrimFloat.is_infinity y then
    if PrimFloat.eqb x (-1)%float then 1%float
    else if Bool.eqb (PrimFloat.ltb (PrimFloat.abs x) 1%float)
                     (PrimFloat.ltb 0%float y)
         then 0%float else PrimFloat.infinity
  else if PrimFloat.is_infinity x then
    if PrimFloat.ltb x 0%float then
      (* Pow(-Inf, y) is Pow(-0, -y) *)
      if PrimFloat.ltb 0%float y then
        if isOddInt y then PrimFloat.neg_infinity else PrimFloat.infinity
      else
        if isOddInt y then PrimFloat.neg_zero else 0%float
    else
      if PrimFloat.ltb y 0%float then 0%float else PrimFloat.infinity
  else if PrimFloat.eqb y 0.5%float then PrimFloat.sqrt x
  else if PrimFloat.eqb y (-0.5)%float
       then PrimFloat.div 1%float (PrimFloat.sqrt x)
  else
    let ay := PrimFloat.abs y in
    if PrimFloat.leb (Z.ldexp PrimFloat.one 63) ay then
      if PrimFloat.eqb x (-1)%float then 1%float
      else if Bool.eqb (PrimFloat.ltb (PrimFloat.abs x) 1%float)
                       (PrimFloat.ltb 0%float y)
           then 0%float else PrimFloat.infinity
    else
      let yi := int64_of_float ay in
      if negb (PrimFloat.eqb (float64_of_int yi) ay) then PrimFloat.nan
      else
        let '(x1, xe) := Z.frexp x in
        let '(a1, ae) :=
          match yi with
          | Z.pos i => pow_loop i 1%float 0 x1 xe
          | _ => (1%float, 0)
          end in
        if PrimFloat.ltb y 0%float
        then Z.ldexp (PrimFloat.div 1%float a1) (- ae)
        else Z.ldexp a1 ae.

(** The values of Go's [error] that the modelled code can produce:
    [Errorf msg] is [fmt.Errorf(msg, ...)] and [Errorw msg err] is
    [fmt.Errorf(msg + ": %w", err)]. *)
Inductive error : Set :=
| sql_ErrNoRows                  (* database/sql: no rows in result set *)
| sqlite_ErrConstraintUnique     (* UNIQUE constraint failed: jobs.id *)
| sqlite_ErrBusy                 (* database is locked *)
| json_SyntaxError               (* encoding/json: the text is not JSON *)
| json_UnmarshalTypeError        (* encoding/json: value of the wrong type *)
| json_UnsupportedValueError     (* encoding/json: NaN or an infinity *)
| strconv_ErrSyntax
| strconv_ErrRange
| Errorf (msg : string)
| Errorw (msg : string) (cause : error).

End Go.

(* ================================================================== *)
(** * encoding/json and strconv, as far as the commands use them       *)
(* ================================================================== *)

Module Json.
Import Go.

(** A JSON text after the scanner: its value, when it is well-formed. *)
#[warnings="-register-all"]
Inductive value : Set :=
| Null
| Bool (b : bool)
| Number (literal : string)
| Str (s : string)
| Array (elems : list value)
| Object (members : list (string * value)).

Inductive text : Set :=
| Malformed
| WellFormed (v : value).

Definition lower (c : ascii) : ascii :=
  let n := N_of_ascii c in
  if ((65 <=? n) && (n <=? 90))%N then ascii_of_N (n + 32) else c.

(** The decoder matches an object key to a field name without regard to
    the case of letters. *)
Fixpoint EqualFold (a b : string) : bool :=
  match a, b with
  | EmptyString, EmptyString => true
  | String x a', String y b' => Ascii.eqb (lower x) (lower y) && EqualFold a' b'
  | _, _ => false
  end.

(** Decoding into a string field: a string sets it, [null] leaves it, any
    other value is a type error, which the decoder keeps (the first one)
    while it goes on. *)
Definition decode_string (v : value) (field : string) (err : option error)
  : string * option error :=
  match v with
  | Str s => (s, err)
  | Null => (field, err)
  | _ => (field, match err with Some _ => err | None => Some json_UnmarshalTypeError end)
  end.

End Json.

Module Strconv.
Import Go.

Definition is_digit (c : ascii) : bool :=
  let n := N_of_ascii c in ((48 <=? n) && (n <=? 57))%N.

Definition digit_val (c : ascii) : Z := Z.of_N (N_of_ascii c) - 48.

(** A run of decimal digits at the head of [s]: the value they give after
    the digits already in [acc], how many there are, and what follows. *)
Fixpoint digits (s : string) (acc : Z) (n : Z) : Z * Z * string :=
  match s with
  | String c s' =>
      if is_digit c then digits s' (acc * 10 + digit_val c) (n + 1)
      else (acc, n, s)
  | EmptyString => (acc, n, s)
  end.

Definition sign (s : string) : bool * string :=
  match s with
  | String "-" r => (true, r)
  | String "+" r => (false, r)
  | _ => (false, s)
  end.

(** [Atoi]: an optional sign and decimal digits, within the range of
    [int]. *)
Definition Atoi (s : string) : Z + error :=
  let '(neg, body) := sign s in
  match digits body 0 0 with
  | (v, n, EmptyString) =>
      if n =? 0 then inr strconv_ErrSyntax
      else
        let v := if neg then - v else v in
        if is_intb v then inl v else inr strconv_ErrRange
  | _ => inr strconv_ErrSyntax
  end.

Fixpoint lower_string (s : string) : string :=
  match s with
  | EmptyString => EmptyString
  | String c s' => String (Json.lower c) (lower_string s')
  end.

(** The binary64 float nearest to [p / q] for positive [p] and [q], ties to
    the even mantissa; an infinity when it is out of range. *)
Definition round_ratio (p q : Z) : float64 :=
  let e := Z.log2 p - Z.log2 q - 53 in
  let e := if 2 ^ 53 * (q * 2 ^ Z.max e 0) <=? p * 2 ^ Z.max (- e) 0 then e + 1 else e in
  let e := Z.max e (- 1074) in
  let num := p * 2 ^ Z.max (- e) 0 in
  let den := q * 2 ^ Z.max e 0 in
  let m := num / den in
  let r := num mod den in
  let m :=
    if 2 * r <? den then m
    else if den <? 2 * r then m + 1
    else if Z.even m then m else m + 1 in
  Z.ldexp (PrimFloat.of_uint63 (Uint63.of_Z m)) e.

(** [ParseFloat(s, 64)] on the special values and on decimal numbers with
    an optional fraction and an optional decimal exponent.  Go accepts in
    addition hexadecimal mantissas and underscores between digits: those two
    forms are outside this model, which reports them as syntax errors. *)
Definition ParseFloat (s : string) : float64 + error :=
  let l := lower_string s in
  if String.eqb l "nan" then inl PrimFloat.nan
  else
    let '(neg, s1) := sign s in
    let l1 := lower_string s1 in
    if String.eqb l1 "inf" || String.eqb l1 "infinity" then
      inl (if neg then PrimFloat.neg_infinity else PrimFloat.infinity)
    else
      let '(ip, ni, s2) := digits s1 0 0 in
      let '(mant, nf, s3) :=
        match s2 with
        | String "." r => digits r ip 0
        | _ => (ip, 0, s2)
        end in
      if ni + nf =? 0 then inr strconv_ErrSyntax
      else
        let exponent :=
          match s3 with
          | EmptyString => Some 0
          | String c r =>
              if Ascii.eqb (Json.lower c) "e" then
                let '(eneg, r1) := sign r in
                match digits r1 0 0 with
                | (e, ne, EmptyString) =>
                    if ne =? 0 then None else Some (if eneg then - e else e)
                | _ => None
                end
              else None
          end in
        match exponent with
        | None => inr strconv_ErrSyntax
        | Some e =>
            let e10 := e - nf in
            let f :=
              if mant =? 0 then 0%float
              else if 0 <=? e10 then round_ratio (mant * 10 ^ e10) 1
              else round_ratio mant (10 ^ (- e10)) in
            if PrimFloat.is_infinity f then inr strconv_ErrRange
            else inl (if neg then PrimFloat.opp f else f)
        end.

End Strconv.

(* ================================================================== *)
(** * internal/store: the job record and the SQLite store             *)
(* ================================================================== *)

Module Store.
Import Go.

Inductive JobState : Set :=
| StatePending
| StateProcessing
| StateCompleted
| StateFailed
| StateDead.

Definition JobState_eqb (a b : JobState) : bool :=
  match a, b with
  | StatePending, StatePending
  | StateProcessing, StateProcessing
  | StateCompleted, StateCompleted
  | StateFailed, StateFailed
  | StateDead, StateDead => true
  | _, _ => false
  end.

Record Job : Set := mkJob {
  ID : string;
  Command : string;
  State : JobState;
  Attempts : Z;
  MaxRetries : Z;
  CreatedAt : Time;
  UpdatedAt : Time;
  NextRunAt : Time
}.

(** Assignments to the fields the code writes. *)
Definition set_State (j : Job) (s : JobState) : Job :=
  mkJob (ID j) (Command j) s (Attempts j) (MaxRetries j)
        (CreatedAt j) (UpdatedAt j) (NextRunAt j).

Definition set_Attempts (j : Job) (a : Z) : Job :=
  mkJob (ID j) (Command j) (State j) a (MaxRetries j)
        (CreatedAt j) (UpdatedAt j) (NextRunAt j).

Definition set_UpdatedAt (j : Job) (t : Time) : Job :=
  mkJob (ID j) (Command j) (State j) (Attempts j) (MaxRetries j)
        (CreatedAt j) t (NextRunAt j).

Definition set_NextRunAt (j : Job) (t : Time) : Job :=
  mkJob (ID j) (Command j) (State j) (Attempts j) (MaxRetries j)
        (CreatedAt j) (UpdatedAt j) t.

(** The zero [time.Time] (January 1, year 1, 00:00 UTC), what a field
    that is not scanned keeps. *)
Definition zeroTime : Time := - 62135596800 * Second.

(** The jobs table: [id] is its primary key. *)
Definition Table := list Job.

Definition has_id (id : string) (r : Job) : bool := String.eqb (ID r) id.

(** [INSERT INTO jobs (...) VALUES (...)] *)
Definition Enqueue (t : Table) (job : Job) : Table * option error :=
  if existsb (has_id (ID job)) t
  then (t, Some sqlite_ErrConstraintUnique)
  else (t ++ [job], None).

(** [ORDER BY created_at ASC]: rows of equal [created_at] stay in table
    order. *)
Fixpoint insert_by_created (x : Job) (l : list Job) : list Job :=
  match l with
  | [] => [x]
  | y :: l' =>
      if CreatedAt x <=? CreatedAt y then x :: l
      else y :: insert_by_created x l'
  end.

Fixpoint order_by_created (l : list Job) : list Job :=
  match l with
  | [] => []
  | x :: l' => insert_by_created x (order_by_created l')
  end.

(** The first row of a list is an oldest one. *)
Definition oldest_first (l : list Job) : Prop :=
  match l with
  | [] => True
  | r :: _ => forall k, In k l -> CreatedAt r <= CreatedAt k
  end.

(** [WHERE state = ? AND next_run_at <= ?] *)
Definition ready (now : Time) (r : Job) : bool :=
  JobState_eqb (State r) StatePending && (NextRunAt r <=? now).

(** [UPDATE jobs SET ... WHERE id = ?] *)
Definition update_where_id (id : string) (f : Job -> Job) (t : Table) : Table :=
  map (fun r => if has_id id r then f r else r) t.

(** [now] is the clock read for the query, [now'] the one for
    [updated_at]. *)
Definition FindAndLockJob (t : Table) (now now' : Time)
  : Table * (option Job * option error) :=
  match order_by_created (filter (ready now) t) with
  | [] => (t, (None, None))
  | row :: _ =>
      let job := row in
      let job := set_State job StateProcessing in
      let job := set_UpdatedAt job now' in
      let job := set_Attempts job (int_add (Attempts job) 1) in
      let t' :=
        update_where_id (ID job)
          (fun r => set_Attempts
                      (set_UpdatedAt (set_State r (State job)) (UpdatedAt job))
                      (Attempts job)) t in
      (t', (Some job, None))
  end.

(** [UpdateJob] refreshes [job.UpdatedAt] through the pointer: the job
    comes back with the table. *)
Definition UpdateJob (t : Table) (job : Job) (now : Time)
  : Table * Job * option error :=
  let job := set_UpdatedAt job now in
  let t' :=
    update_where_id (ID job)
      (fun r => set_NextRunAt
                  (set_UpdatedAt
                     (set_Attempts (set_State r (State job)) (Attempts job))
                     (UpdatedAt job))
                  (NextRunAt job)) t in
  (t', job, None).

(** [GetJob] returns either the row or the error of [row.Scan]. *)
Definition GetJob (t : Table) (id : string) : Job + error :=
  match find (has_id id) t with
  | Some r => inl r
  | None => inr sql_ErrNoRows
  end.

(** [next_run_at] is not selected: the jobs listed carry the zero time. *)
Definition ListJobsByState (t : Table) (state : JobState)
  : list Job * option error :=
  (map (fun r => set_NextRunAt r zeroTime)
       (order_by_created
          (filter (fun r => JobState_eqb (State r) state) t)),
   None).

(** A Go [map[JobState]int]: the entries, one for a key. *)
Definition Summary := list (JobState * Z).

(** [summary[state]], and whether the key is there. *)
Fixpoint lookup (m : Summary) (state : JobState) : option Z :=
  match m with
  | [] => None
  | (k, count) :: m' =>
      if JobState_eqb k state then Some count else lookup m' state
  end.

(** [GROUP BY state] with [COUNT( * )], a row at a time: the group of the
    row's state gets one more, a new group starts at one. *)
Fixpoint count_in_group (state : JobState) (m : Summary) : Summary :=
  match m with
  | [] => [(state, 1)]
  | (k, count) :: m' =>
      if JobState_eqb k state then (k, count + 1) :: m'
      else (k, count) :: count_in_group state m'
  end.

(** [SELECT state, COUNT( * ) FROM jobs GROUP BY state], each group put in
    the map. *)
Definition GetStatusSummary (t : Table) : Summary * option error :=
  (fold_left (fun m r => count_in_group (State r) m) t [], None).

(** The number of rows in a state. *)
Definition rows_in (t : Table) (state : JobState) : Z :=
  Z.of_nat (List.length (filter (fun r => JobState_eqb (State r) state) t)).

(** The columns that no statement of the store updates. *)
Definition immutable (r : Job) : string * string * Z * Time :=
  (ID r, Command r, MaxRetries r, CreatedAt r).


(** The keys of a specification that [NewJobFromSpec] reads. *)
Definition is_field (key : string) : bool :=
  Json.EqualFold key "id" || Json.EqualFold key "command".

(** The anonymous struct [NewJobFromSpec] decodes into. *)
Record partialJob : Set := mkPartialJob {
  partial_ID : string;
  partial_Command : string
}.

Fixpoint decode_members (ms : list (string * Json.value)) (p : partialJob)
    (err : option error) : partialJob * option error :=
  match ms with
  | [] => (p, err)
  | (key, v) :: ms' =>
      if Json.EqualFold key "id" then
        let '(s, err) := Json.decode_string v (partial_ID p) err in
        decode_members ms' (mkPartialJob s (partial_Command p)) err
      else if Json.EqualFold key "command" then
        let '(s, err) := Json.decode_string v (partial_Command p) err in
        decode_members ms' (mkPartialJob (partial_ID p) s) err
      else decode_members ms' p err
  end.

(** [json.Unmarshal([]byte(spec), &partialJob)]: an object fills the fields
    its keys name, [null] changes nothing, any other value is a type
    error. *)
Definition Unmarshal (spec : Json.text) (p : partialJob) : partialJob * option error :=
  match spec with
  | Json.Malformed => (p, Some json_SyntaxError)
  | Json.WellFormed Json.Null => (p, None)
  | Json.WellFormed (Json.Object ms) => decode_members ms p None
  | Json.WellFormed _ => (p, Some json_UnmarshalTypeError)
  end.

(** [uuid] is the string [uuid.New().String()] gives, [now] the clock. *)
Definition NewJobFromSpec (spec : Json.text) (defaultMaxRetries : Z)
    (uuid : string) (now : Time) : Job + error :=
  match Unmarshal spec (mkPartialJob "" "") with
  | (_, Some err) => inr err
  | (partialJob, None) =>
      let jobID := partial_ID partialJob in
      let jobID := if String.eqb jobID "" then uuid else jobID in
      inl (mkJob jobID (partial_Command partialJob) StatePending 0
                 defaultMaxRetries now now now)
  end.

End Store.

(* ================================================================== *)
(** * internal/store: the calls, when the database can refuse          *)
(* ================================================================== *)

(** A call of database/sql comes back with the error of the driver when
    the database does not run the statement: the file is locked by another
    connection, the snapshot of the transaction is stale, the disk fails.
    The statement then has no effect, and a transaction that does not
    commit is rolled back ([defer tx.Rollback()]).  What the database
    answers is an argument of the call. *)

Module SQLiteStore.
Import Go Store.

Inductive answer : Set :=
| Runs
| Refuses (err : error).

(** The answers to the four calls of a transaction of [FindAndLockJob]. *)
Record transaction : Set := mkTransaction {
  Begin : answer;       (* s.db.Begin() *)
  QueryRow : answer;    (* row.Scan of tx.QueryRow(...) *)
  Exec : answer;        (* tx.Exec(updateQuery, ...) *)
  Commit : answer       (* tx.Commit() *)
}.

(** [FindAndLockJob]: [row.Scan] gives [sql.ErrNoRows] when the result is
    empty; the last line returns the job together with the error of
    [tx.Commit()]. *)
Definition FindAndLockJob (a : transaction) (t : Table) (now now' : Time)
  : Table * (option Job * option error) :=
  match Begin a with
  | Refuses err => (t, (None, Some err))
  | Runs =>
      let result := order_by_created (filter (ready now) t) in
      let scanned :=
        match QueryRow a, result with
        | Refuses err, _ => inr err
        | Runs, [] => inr sql_ErrNoRows
        | Runs, row :: _ => inl row
        end in
      match scanned with
      | inr sql_ErrNoRows => (t, (None, None))
      | inr err => (t, (None, Some err))
      | inl row =>
          let job := row in
          let job := set_State job StateProcessing in
          let job := set_UpdatedAt job now' in
          let job := set_Attempts job (int_add (Attempts job) 1) in
          match Exec a with
          | Refuses err => (t, (None, Some err))
          | Runs =>
              let t' :=
                update_where_id (ID job)
                  (fun r => set_Attempts
                              (set_UpdatedAt (set_State r (State job))
                                             (UpdatedAt job))
                              (Attempts job)) t in
              match Commit a with
              | Refuses err => (t, (Some job, Some err))
              | Runs => (t', (Some job, None))
              end
          end
      end
  end.

(** [UpdateJob]: [job.UpdatedAt] is assigned before the statement is
    sent. *)
Definition UpdateJob (a : answer) (t : Table) (job : Job) (now : Time)
  : Table * Job * option error :=
  match a with
  | Refuses err => (t, set_UpdatedAt job now, Some err)
  | Runs => Store.UpdateJob t job now
  end.

(** What a query and the iteration over its rows meet.  [rows.Next()]
    returns false at the end of the result and also when the iteration
    breaks off, after [n] rows; the code does not call [rows.Err()], which
    would tell the two apart. *)
Record Rows : Set := mkRows {
  Query : answer;         (* s.db.Query(...) *)
  Next : option nat;      (* None: to the end; Some n: breaks off after n rows *)
  Scan : nat -> answer    (* rows.Scan(...) of the row of that index *)
}.

(** The rows that [rows.Next()] gives. *)
Definition iterated {A : Type} (next : option nat) (result : list A) : list A :=
  match next with
  | None => result
  | Some n => firstn n result
  end.

(** [for rows.Next() { if err := rows.Scan(...); err != nil { return nil, err }; ... }]:
    [i] is the index of the row, [acc] what the loop has built and [add]
    the last line of its body. *)
Fixpoint each_row {A B : Type} (scan : nat -> answer) (add : B -> A -> B)
    (i : nat) (rows : list A) (acc : B) : B + error :=
  match rows with
  | [] => inl acc
  | row :: rows' =>
      match scan i with
      | Refuses err => inr err
      | Runs => each_row scan add (S i) rows' (add acc row)
      end
  end.

(** [ListJobsByState]: the result of the query is what
    [Store.ListJobsByState] gives. *)
Definition ListJobsByState (a : Rows) (t : Table) (state : JobState)
  : list Job * option error :=
  match Query a with
  | Refuses err => ([], Some err)
  | Runs =>
      let result := fst (Store.ListJobsByState t state) in
      match each_row (Scan a) (fun jobs job => jobs ++ [job]) 0
                     (iterated (Next a) result) [] with
      | inr err => ([], Some err)
      | inl jobs => (jobs, None)
      end
  end.

(** [summary[state] = count] *)
Fixpoint assign (m : Summary) (state : JobState) (count : Z) : Summary :=
  match m with
  | [] => [(state, count)]
  | (k, c) :: m' =>
      if JobState_eqb k state then (k, count) :: m'
      else (k, c) :: assign m' state count
  end.

(** [GetStatusSummary]: the result of the query has a row for each group,
    the entries of [Store.GetStatusSummary]. *)
Definition GetStatusSummary (a : Rows) (t : Table) : Summary * option error :=
  match Query a with
  | Refuses err => ([], Some err)
  | Runs =>
      let result := fst (Store.GetStatusSummary t) in
      match each_row (Scan a)
                     (fun summary group => assign summary (fst group) (snd group))
                     0 (iterated (Next a) result) [] with
      | inr err => ([], Some err)
      | inl summary => (summary, None)
      end
  end.

(** The database runs every statement. *)
Definition commits : transaction := mkTransaction Runs Runs Runs Runs.

Definition delivers : Rows := mkRows Runs None (fun _ => Runs).

End SQLiteStore.

(* ================================================================== *)
(** * internal/config                                                  *)
(* ================================================================== *)

Module Config.
Import Go.

Definition DefaultMaxRetries : Z := 3.
Definition DefaultBackoffBase : float64 := 2%float.

Record Config : Set := mkConfig {
  MaxRetries : Z;
  BackoffBase : float64;
  DatabasePath : string          (* json:"-", not stored in the file *)
}.

(** What config.json holds: the two fields with a json name. *)
Record File : Set := mkFile {
  max_retries : Z;
  backoff_base : float64
}.

(** [Save]: [json.MarshalIndent] refuses a float that is NaN or infinite,
    then nothing is written. *)
Definition Save (c : Config) (file : option File) : option File * option error :=
  if PrimFloat.is_nan (BackoffBase c) || PrimFloat.is_infinity (BackoffBase c)
  then (file, Some json_UnsupportedValueError)
  else (Some (mkFile (MaxRetries c) (BackoffBase c)), None).

End Config.

(* ================================================================== *)
(** * internal/worker: what a worker does with a claimed job           *)
(* ================================================================== *)

Module Worker.
Import Go Store.

(** [time.Duration(math.Pow(w.Cfg.BackoffBase, float64(job.Attempts))) * time.Second] *)
Definition backoffDuration (cfg : Config.Config) (job : Job) : Duration :=
  int_mul
    (int64_of_float (Pow (Config.BackoffBase cfg) (float64_of_int (Attempts job))))
    Second.

(** The assignments of [handleFailure] to the job it holds, in the order of
    the source, up to the call of [UpdateJob]. *)
Definition failureTransition (cfg : Config.Config) (job : Job) (now : Time) : Job :=
  if Attempts job >=? MaxRetries job then
    set_State job StateDead
  else
    let job := set_State job StateFailed in
    let job := set_NextRunAt job (Time_Add now (backoffDuration cfg job)) in
    let job := set_State job StatePending in
    job.

(** [now] is the clock read of the reschedule, [now'] the one of
    [UpdateJob] and [update] what the database answers to it; an error of
    [UpdateJob] is logged and dropped. *)
Definition handleFailure (cfg : Config.Config) (t : Table) (job : Job)
    (now now' : Time) (update : SQLiteStore.answer) : Table * Job :=
  let job := failureTransition cfg job now in
  let '(t', job, _) := SQLiteStore.UpdateJob update t job now' in
  (t', job).

(** [processJob], given how the command ended ([failed]: [cmd.CombinedOutput]
    returned an error) and what the database answers to the update, whose
    error is logged and dropped. *)
Definition processJob (cfg : Config.Config) (t : Table) (job : Job)
    (failed : bool) (now now' : Time) (update : SQLiteStore.answer)
  : Table * Job :=
  if failed then handleFailure cfg t job now now' update
  else
    let job := set_State job StateCompleted in
    let '(t', job, _) := SQLiteStore.UpdateJob update t job now' in
    (t', job).

(** What one turn of the loop of [Run] meets: whether the context is
    done, the clock reads of [FindAndLockJob], how the command of the job
    found ends, the clock reads of [handleFailure] and [UpdateJob], and
    what the database answers to the transaction of [FindAndLockJob] and to
    the update. *)
Record turn : Set := mkTurn {
  done : bool;
  now_find : Time;
  now_lock : Time;
  failed : bool;
  now_fail : Time;
  now_update : Time;
  find : SQLiteStore.transaction;
  update : SQLiteStore.answer
}.

(** [Run]: the loop over the turns it is given, until the context is done.
    When [FindAndLockJob] returns an error or no job the worker sleeps a
    second and goes on. *)
Fixpoint Run (cfg : Config.Config) (t : Table) (turns : list turn) : Table :=
  match turns with
  | [] => t
  | k :: turns' =>
      if done k then t
      else
        match SQLiteStore.FindAndLockJob (find k) t (now_find k) (now_lock k) with
        | (t', (_, Some err)) => Run cfg t' turns'
        | (t', (None, None)) => Run cfg t' turns'
        | (t', (Some job, None)) =>
            let '(t'', _) :=
              processJob cfg t' job (failed k) (now_fail k) (now_update k)
                         (update k) in
            Run cfg t'' turns'
        end
  end.

End Worker.

(* ================================================================== *)
(** * cmd: the enqueue, config set and dlq retry commands              *)
(* ================================================================== *)

Module Cmd.
Import Go Store.

(** [enqueueCmd]: [cfg] and the table are the globals [cfg] and [db]. *)
Definition enqueueCmd (cfg : Config.Config) (t : Table) (jobSpec : Json.text)
    (uuid : string) (now : Time) : Table * option error :=
  match NewJobFromSpec jobSpec (Config.MaxRetries cfg) uuid now with
  | inr err => (t, Some (Errorw "invalid job spec" err))
  | inl job =>
      match Enqueue t job with
      | (t', Some err) => (t', Some (Errorw "failed to enqueue job" err))
      | (t', None) => (t', None)
      end
  end.

(** [configSetCmd]: the configuration in memory, the file, and the error
    the command returns. *)
Definition configSetCmd (cfg : Config.Config) (file : option Config.File)
    (key value : string) : Config.Config * option Config.File * option error :=
  let parsed : Config.Config + error :=
    if String.eqb key "max-retries" then
      match Strconv.Atoi value with
      | inr _ => inr (Errorf "invalid value for max-retries")
      | inl retries =>
          inl (Config.mkConfig retries (Config.BackoffBase cfg)
                               (Config.DatabasePath cfg))
      end
    else if String.eqb key "backoff-base" then
      match Strconv.ParseFloat value with
      | inr _ => inr (Errorf "invalid value for backoff-base")
      | inl base =>
          inl (Config.mkConfig (Config.MaxRetries cfg) base
                               (Config.DatabasePath cfg))
      end
    else inr (Errorf "unknown configuration key") in
  match parsed with
  | inr err => (cfg, file, Some err)
  | inl cfg =>
      match Config.Save cfg file with
      | (file, Some err) => (cfg, file, Some (Errorw "failed to save config" err))
      | (file, None) => (cfg, file, None)
      end
  end.

(** "Reset job for retry": the three assignments of [dlqRetryCmd]. *)
Definition resetForRetry (job : Job) (now : Time) : Job :=
  let job := set_State job StatePending in
  let job := set_Attempts job 0 in
  let job := set_NextRunAt job now in
  job.

(** [dlqRetryCmd]: [now] is the clock read for [NextRunAt], [now'] the one
    of [UpdateJob]. *)
Definition dlqRetryCmd (t : Table) (jobID : string) (now now' : Time)
  : Table * option error :=
  match GetJob t jobID with
  | inr err => (t, Some (Errorw "failed to get job" err))
  | inl job =>
      if negb (JobState_eqb (State job) StateDead) then
        (t, Some (Errorf "job is not in the DLQ"))
      else
        let job := resetForRetry job now in
        match UpdateJob t job now' with
        | (t', _, Some err) => (t', Some (Errorw "failed to retry job" err))
        | (t', _, None) => (t', None)
        end
  end.

(** The five states in the order [statusCmd] prints them. *)
Definition states : list JobState :=
  [StatePending; StateProcessing; StateCompleted; StateFailed; StateDead].

(** The string of a [JobState]. *)
Definition state_name (state : JobState) : string :=
  match state with
  | StatePending => "pending"
  | StateProcessing => "processing"
  | StateCompleted => "completed"
  | StateFailed => "failed"
  | StateDead => "dead"
  end.

(** [statusCmd]: the lines of the table, a state and its count, the count
    being 0 for a state the summary has no entry for. *)
Definition statusCmd (t : Table) : list (JobState * Z) * option error :=
  match GetStatusSummary t with
  | (_, Some err) => ([], Some (Errorw "failed to get status summary" err))
  | (summary, None) =>
      (map (fun state =>
              let count :=
                match lookup summary state with
                | Some val => val
                | None => 0
                end in
              (state, count)) states,
       None)
  end.

(** [validStates[state]] for the string [state]: the [JobState] it is, when
    it is one of the five. *)
Definition validState (state : string) : option JobState :=
  find (fun s => String.eqb (state_name s) state) states.

(** Text of ASCII characters only. *)
Fixpoint is_ascii (s : string) : bool :=
  match s with
  | EmptyString => true
  | String c s' => (N_of_ascii c <? 128)%N && is_ascii s'
  end.

(** [listCmd]: the jobs it prints, or the error.  [strings.ToLower] is
    taken on ASCII text, where it changes the letters A to Z only. *)
Definition listCmd (t : Table) (stateStr : string) : list Job * option error :=
  let state := Strconv.lower_string stateStr in
  match validState state with
  | None => ([], Some (Errorf "invalid state"))
  | Some state =>
      match ListJobsByState t state with
      | (_, Some err) => ([], Some (Errorw "failed to list jobs" err))
      | (jobs, None) => (jobs, None)
      end
  end.


End Cmd.

(* ================================================================== *)
(** * The lifecycle as a transition system                             *)
(* ================================================================== *)

(** The store is shared by the processes that run commands and by the
    workers; each holds copies of rows in its own memory between two store
    calls.  A state is the table together with the jobs that workers have
    claimed and not yet written back ([claimed]) and the jobs that a
    [dlq retry] has read and reset and not yet written back ([retrying]).
    Each store call is one step, so calls of different processes interleave
    freely; the configuration a step runs under is any configuration whose
    [MaxRetries] is an [int]. *)

Module System.
Import Go Store.

Record state : Set := mkState {
  table : Table;
  claimed : list Job;
  retrying : list Job
}.

Definition init : state := mkState [] [] [].

Inductive step : state -> state -> Prop :=
| step_enqueue (st : state) cfg jobSpec uuid now t' :
    is_int (Config.MaxRetries cfg) ->
    Cmd.enqueueCmd cfg (table st) jobSpec uuid now = (t', None) ->
    step st (mkState t' (claimed st) (retrying st))
| step_claim (st : state) now now' t' job :
    FindAndLockJob (table st) now now' = (t', (Some job, None)) ->
    step st (mkState t' (job :: claimed st) (retrying st))
| step_process (st : state) cfg failed now now' update l1 job l2 :
    claimed st = l1 ++ job :: l2 ->
    step st (mkState (fst (Worker.processJob cfg (table st) job failed now now'
                                             update))
                     (l1 ++ l2) (retrying st))
| step_retry_get (st : state) jobID now job :
    GetJob (table st) jobID = inl job ->
    State job = StateDead ->
    step st (mkState (table st) (claimed st)
                     (Cmd.resetForRetry job now :: retrying st))
| step_retry_update (st : state) now' l1 job l2 :
    retrying st = l1 ++ job :: l2 ->
    step st (mkState (fst (fst (UpdateJob (table st) job now')))
                     (claimed st) (l1 ++ l2)).

Inductive reachable : state -> Prop :=
| reachable_init : reachable init
| reachable_step st st' : reachable st -> step st st' -> reachable st'.

(** What holds of the state, attempts and max_retries of a row, and of a
    job about to be written: the state is not failed, the attempts are an
    [int] and, when max_retries is at least 1, a pending job has fewer
    attempts than max_retries and a job that is not dead has no more. *)
Definition job_ok (s : JobState) (attempts maxRetries : Z) : Prop :=
  s <> StateFailed /\
  is_int attempts /\
  (1 <= maxRetries ->
   (s = StatePending -> attempts < maxRetries) /\
   (s <> StateDead -> attempts <= maxRetries)).

Definition row_ok (r : Job) : Prop :=
  is_int (MaxRetries r) /\ job_ok (State r) (Attempts r) (MaxRetries r).

(** The columns of a row that no statement updates. *)
Definition keys (t : Table) : list (string * Z) :=
  map (fun r => (ID r, MaxRetries r)) t.

(** A job held in memory is the copy of a row. *)
Definition held (t : Table) (c : Job) : Prop :=
  In (ID c, MaxRetries c) (keys t).

Definition claimed_ok (t : Table) (c : Job) : Prop :=
  is_int (Attempts c) /\
  (1 <= MaxRetries c -> Attempts c <= MaxRetries c) /\
  held t c.

Definition retrying_ok (t : Table) (c : Job) : Prop :=
  State c = StatePending /\ Attempts c = 0 /\ held t c.

Record invariant (st : state) : Prop := mkInvariant {
  inv_pk : NoDup (map ID (table st));
  inv_rows : Forall row_ok (table st);
  inv_claimed : Forall (claimed_ok (table st)) (claimed st);
  inv_retrying : Forall (retrying_ok (table st)) (retrying st)
}.

(** [K] calls of [FindAndLockJob] one after the other, each with its own two
    clock reads: the table at the end and what each call returned. *)
Fixpoint claims (t : Table) (clock : list (Time * Time))
  : Table * list (option Job) :=
  match clock with
  | [] => (t, [])
  | (now, now') :: clock' =>
      let '(t1, (job, _)) := FindAndLockJob t now now' in
      let '(t2, jobs) := claims t1 clock' in
      (t2, job :: jobs)
  end.

(** Any number of steps. *)
Inductive steps : state -> state -> Prop :=
| steps_refl st : steps st st
| steps_step st st' st'' : steps st st' -> step st' st'' -> steps st st''.

(** How many times a job can have been claimed: its max_retries, and once
    when that is below 1. *)
Definition runs (maxRetries : Z) : Z := Z.max 1 maxRetries.

(** The attempts that go with a state. *)
Definition attempts_ok (s : JobState) (attempts maxRetries : Z) : Prop :=
  match s with
  | StatePending => 0 <= attempts < runs maxRetries
  | StateProcessing | StateCompleted => 1 <= attempts <= runs maxRetries
  | StateDead => attempts = runs maxRetries
  | StateFailed => False
  end.

Definition row_bounded (r : Job) : Prop :=
  attempts_ok (State r) (Attempts r) (MaxRetries r).

Definition claimed_bounded (c : Job) : Prop :=
  1 <= Attempts c <= runs (MaxRetries c).

Definition bounded (st : state) : Prop :=
  Forall row_bounded (table st) /\ Forall claimed_bounded (claimed st).

(** The ids of the jobs that a series of calls returned. *)
Definition returned_ids (jobs : list (option Job)) : list string :=
  flat_map (fun o => match o with Some job => [ID job] | None => [] end) jobs.

Definition pending_ids (t : Table) : list string :=
  map ID (filter (fun r => JobState_eqb (State r) StatePending) t).

(** [K] calls of [FindAndLockJob] by workers that run at the same time.
    SQLite isolates their transactions: those that commit take effect one
    after the other, and a call whose transaction the database refuses
    returns the error and leaves the table as it was.  The calls are listed
    in that order, each with the answers of the database and its two clock
    reads: the table at the end and what each call returned. *)
Fixpoint concurrent_claims (t : Table)
    (calls : list (SQLiteStore.transaction * (Time * Time)))
  : Table * list (option Job * option error) :=
  match calls with
  | [] => (t, [])
  | (a, (now, now')) :: calls' =>
      let '(t1, result) := SQLiteStore.FindAndLockJob a t now now' in
      let '(t2, results) := concurrent_claims t1 calls' in
      (t2, result :: results)
  end.

(** The jobs the callers receive: [Run] looks at the error first, and a job
    that comes with the error of [tx.Commit()] is not run. *)
Definition received (results : list (option Job * option error)) : list Job :=
  flat_map (fun result =>
              match result with
              | (Some job, None) => [job]
              | _ => []
              end) results.

(** The calls that returned an error. *)
Definition refused (results : list (option Job * option error)) : nat :=
  List.length (filter (fun result =>
                         match snd result with
                         | Some _ => true
                         | None => false
                         end) results).

End System.

(* ================================================================== *)
(** * The formula of the specification                                 *)
(* ================================================================== *)

Module Spec.
Import Go.

(** "nextRunAt = now + backoffBase ^ attempts (unit: seconds)": the delay
    [d], in nanoseconds, is exactly [base ^ attempts] seconds.  With [base]
    the rational [p / q] this is [d * q ^ attempts = 10^9 * p ^ attempts]. *)
Definition exact_backoff (base : float64) (attempts : Z) (d : Duration) : Prop :=
  match float_ratio base with
  | Some (p, q) => d * q ^ attempts = Second * p ^ attempts
  | None => False
  end.

End Spec.

(* ================================================================== *)
(** * Sample data                                                      *)
(* ================================================================== *)

Module Sample.
Import Go Store.

Definition cfg (maxRetries : Z) (base : float64) : Config.Config :=
  Config.mkConfig maxRetries base "/home/user/.queuectl/jobs.db".

Definition defaultCfg : Config.Config :=
  cfg Config.DefaultMaxRetries Config.DefaultBackoffBase.

Definition pending (id command : string) (attempts maxRetries : Z)
    (created next : Time) : Job :=
  mkJob id command StatePending attempts maxRetries created created next.

(** Three rows: job2 was inserted first but job1 is older; job3 is older
    still but not ready before time 900. *)
Definition job1 : Job := pending "job1" "echo job 1 complete" 0 3 100 100.
Definition job2 : Job := pending "job2" "sleep 3 && echo job 2 complete" 0 3 200 200.
Definition job3 : Job := pending "job3-fail" "non_existent_command" 1 3 50 900.

Definition jobs : Table := [job2; job1; job3].

Definition deadJob : Job :=
  mkJob "failing-job" "exit 1" StateDead 2 2 100 400 250.

Definition dlq : Table := [job1; deadJob].

(** A job enqueued while max-retries is 0, then claimed once: the table,
    and the copy the worker holds. *)
Definition zeroRetriesCfg : Config.Config := cfg 0 Config.DefaultBackoffBase.

Definition zeroRetriesSpec : Json.text :=
  Json.WellFormed
    (Json.Object [("id"%string, Json.Str "job1");
                  ("command"%string, Json.Str "exit 1")]).

Definition claimedOnce : System.state :=
  let job := mkJob "job1" "exit 1" StateProcessing 1 0 100 201 100 in
  System.mkState [job] [job] [].

(** A job enqueued under the default configuration, claimed, and failed
    once: it is pending again, two seconds after the failure. *)
Definition enqueuedSpec : Json.text :=
  Json.WellFormed
    (Json.Object [("id"%string, Json.Str "job3-fail");
                  ("command"%string, Json.Str "non_existent_command")]).

Definition failedOnce : System.state :=
  System.mkState
    [mkJob "job3-fail" "non_existent_command" StatePending 1 3 100 301 2000000300]
    [] [].

End Sample.

(* ================================================================== *)
(** * Properties                                                       *)
(* ================================================================== *)

Import Go Store.

(** ** 64-bit arithmetic *)

Lemma wrap64_id (z : Z) : is_int z -> wrap64 z = z.
Proof.
  unfold is_int, wrap64, min_int64, max_int64. intros H.
  rewrite Z.mod_small; lia.
Qed.

Lemma wrap64_is_int (z : Z) : is_int (wrap64 z).
Proof.
  unfold is_int, wrap64, min_int64, max_int64.
  pose proof (Z.mod_pos_bound (z + 2 ^ 63) (2 ^ 64) ltac:(lia)). lia.
Qed.

Lemma is_intb_spec (z : Z) : is_intb z = true <-> is_int z.
Proof.
  unfold is_intb, is_int. rewrite andb_true_iff, !Z.leb_le. tauto.
Qed.

Lemma int_add_1 (a : Z) : min_int64 <= a < max_int64 -> int_add a 1 = a + 1.
Proof.
  intros H. apply wrap64_id. unfold is_int. lia.
Qed.

(** ** Job states and rows *)

Lemma JobState_eqb_eq (a b : JobState) : JobState_eqb a b = true <-> a = b.
Proof. destruct a, b; simpl; split; congruence. Qed.

Lemma JobState_eqb_neq (a b : JobState) : JobState_eqb a b = false <-> a <> b.
Proof. destruct a, b; simpl; split; congruence. Qed.

Lemma has_id_true (id : string) (r : Job) : has_id id r = true <-> ID r = id.
Proof. unfold has_id. apply String.eqb_eq. Qed.

Lemma has_id_false (id : string) (r : Job) : has_id id r = false <-> ID r <> id.
Proof. unfold has_id. apply String.eqb_neq. Qed.

Lemma ready_spec (now : Time) (r : Job) :
  ready now r = true <-> State r = StatePending /\ NextRunAt r <= now.
Proof.
  unfold ready. rewrite andb_true_iff, JobState_eqb_eq, Z.leb_le. tauto.
Qed.

(** ** [ORDER BY created_at ASC] *)

Section OrderBy.

Lemma insert_by_created_In (x a : Job) (l : list Job) :
  In x (insert_by_created a l) <-> x = a \/ In x l.
Proof.
  induction l as [|y l IH]; simpl.
  - intuition congruence.
  - destruct (CreatedAt a <=? CreatedAt y); simpl.
    + intuition congruence.
    + rewrite IH. intuition congruence.
Qed.

Lemma order_by_created_In (x : Job) (l : list Job) :
  In x (order_by_created l) <-> In x l.
Proof.
  induction l as [|y l IH]; simpl.
  - tauto.
  - rewrite insert_by_created_In, IH. intuition congruence.
Qed.

Lemma insert_by_created_oldest (a : Job) (l : list Job) :
  oldest_first l -> oldest_first (insert_by_created a l).
Proof.
  destruct l as [|y l]; simpl.
  - intros _ k [<-|[]]. lia.
  - intros Hy. destruct (CreatedAt a <=? CreatedAt y) eqn:E; simpl.
    + apply Z.leb_le in E.
      intros k [<-|Hk]; [lia|]. specialize (Hy k Hk). lia.
    + apply Z.leb_gt in E.
      intros k [<-|Hk]; [lia|].
      apply insert_by_created_In in Hk. destruct Hk as [->|Hk]; [lia|].
      apply Hy. now right.
Qed.

Lemma order_by_created_oldest (l : list Job) : oldest_first (order_by_created l).
Proof.
  induction l as [|x l IH]; simpl; [exact I|].
  now apply insert_by_created_oldest.
Qed.

Lemma order_by_created_nil (l : list Job) : order_by_created l = [] -> l = [].
Proof.
  destruct l as [|x l]; [reflexivity|]. intros H.
  assert (Hin : In x (order_by_created (x :: l)))
    by (apply order_by_created_In; now left).
  rewrite H in Hin. destruct Hin.
Qed.

(** What [ORDER BY created_at ASC LIMIT 1] returns on the ready rows. *)
Lemma first_ready_spec (t : Table) (now : Time) (row : Job) (rest : list Job) :
  order_by_created (filter (ready now) t) = row :: rest ->
  In row t /\ State row = StatePending /\ NextRunAt row <= now /\
  forall k, In k t -> State k = StatePending -> NextRunAt k <= now ->
            CreatedAt row <= CreatedAt k.
Proof.
  intros H.
  assert (Hin : In row (filter (ready now) t)).
  { apply order_by_created_In. rewrite H. now left. }
  apply filter_In in Hin. destruct Hin as [Hin Hr].
  apply ready_spec in Hr. destruct Hr as [Hs Hn].
  repeat split; auto.
  intros k Hk Hks Hkn.
  pose proof (order_by_created_oldest (filter (ready now) t)) as Ho.
  rewrite H in Ho. apply Ho. rewrite <- H.
  apply order_by_created_In, filter_In. split; [assumption|].
  apply ready_spec. now split.
Qed.

Lemma no_ready_spec (t : Table) (now : Time) :
  order_by_created (filter (ready now) t) = [] ->
  forall k, In k t -> ~ (State k = StatePending /\ NextRunAt k <= now).
Proof.
  intros H k Hk Hr. apply order_by_created_nil in H.
  assert (Hin : In k (filter (ready now) t)).
  { apply filter_In. split; [assumption|]. now apply ready_spec. }
  rewrite H in Hin. destruct Hin.
Qed.

End OrderBy.

(** ** [UPDATE ... WHERE id = ?] on a table with a primary key *)

Section PrimaryKey.

Variable t : Table.
Hypothesis pk : NoDup (map ID t).

Lemma primary_key_inj (a b : Job) : In a t -> In b t -> ID a = ID b -> a = b.
Proof.
  revert pk. induction t as [|r t' IH]; simpl; [tauto|].
  intros Hnd Ha Hb E. inversion Hnd as [|? ? Hr Hnd']; subst.
  destruct Ha as [<-|Ha], Hb as [<-|Hb]; auto.
  - exfalso. apply Hr. rewrite E. now apply in_map.
  - exfalso. apply Hr. rewrite <- E. now apply in_map.
Qed.

Lemma update_where_id_row (row : Job) (f : Job -> Job) :
  In row t ->
  update_where_id (ID row) f t
  = map (fun r => if has_id (ID row) r then f row else r) t.
Proof.
  intros Hrow. unfold update_where_id. apply map_ext_in. intros r Hr.
  destruct (has_id (ID row) r) eqn:E; [|reflexivity].
  apply has_id_true in E. now rewrite (primary_key_inj r row Hr Hrow E).
Qed.

Lemma find_replaced (row job : Job) :
  In row t -> ID job = ID row ->
  find (has_id (ID row))
       (map (fun r => if has_id (ID row) r then job else r) t) = Some job.
Proof.
  intros Hrow Hid. clear pk. induction t as [|r t' IH]; simpl in *; [tauto|].
  destruct (has_id (ID row) r) eqn:E.
  - assert (Hj : has_id (ID row) job = true) by now apply has_id_true.
    now rewrite Hj.
  - rewrite E. destruct Hrow as [->|Hrow].
    + apply has_id_false in E. congruence.
    + now apply IH.
Qed.

End PrimaryKey.

(** ** C2: the claim *)

(** C2. [FindAndLockJob] on a table with its primary key, whose attempt
    counters are below the largest [int]: when it returns a job, that job
    is the copy of a pending row with [next_run_at <= now] that no other
    such row precedes in [created_at], with state processing, attempts one
    more and the new [updated_at]; the table holds that job in place of the
    row, and [GetJob] returns it; the error is nil.  When it returns no job
    the error is nil too, the table is the same, and no row is pending with
    [next_run_at <= now]. *)
Theorem FindAndLockJob_claims_oldest_ready (t : Table) (now now' : Time) :
  NoDup (map ID t) ->
  (forall r, In r t -> min_int64 <= Attempts r < max_int64) ->
  match FindAndLockJob t now now' with
  | (t', (Some job, err)) =>
      err = None /\
      exists row,
        In row t /\ State row = StatePending /\ NextRunAt row <= now /\
        (forall k, In k t -> State k = StatePending -> NextRunAt k <= now ->
                   CreatedAt row <= CreatedAt k) /\
        job = mkJob (ID row) (Command row) StateProcessing (Attempts row + 1)
                    (MaxRetries row) (CreatedAt row) now' (NextRunAt row) /\
        t' = map (fun r => if has_id (ID row) r then job else r) t /\
        GetJob t' (ID row) = inl job
  | (t', (None, err)) =>
      err = None /\ t' = t /\
      forall k, In k t -> ~ (State k = StatePending /\ NextRunAt k <= now)
  end.
Proof.
  intros pk Hrange. unfold FindAndLockJob.
  destruct (order_by_created (filter (ready now) t)) as [|row rest] eqn:E.
  - split; [reflexivity|]. split; [reflexivity|]. now apply no_ready_spec.
  - destruct (first_ready_spec _ _ _ _ E) as (Hin & Hs & Hn & Hmin).
    split; [reflexivity|]. exists row. do 4 (split; [assumption|]).
    cbn [ID Command State Attempts MaxRetries CreatedAt UpdatedAt NextRunAt
         set_State set_UpdatedAt set_Attempts].
    rewrite (int_add_1 _ (Hrange row Hin)).
    set (job := mkJob (ID row) (Command row) StateProcessing (Attempts row + 1)
                      (MaxRetries row) (CreatedAt row) now' (NextRunAt row)).
    assert (Ht : update_where_id (ID row)
                   (fun r => set_Attempts
                               (set_UpdatedAt (set_State r StateProcessing) now')
                               (Attempts row + 1)) t
                 = map (fun r => if has_id (ID row) r then job else r) t).
    { rewrite (update_where_id_row t pk row) by assumption. reflexivity. }
    rewrite Ht. split; [reflexivity|]. split; [reflexivity|].
    unfold GetJob. now rewrite (find_replaced t row job Hin eq_refl).
Qed.

Lemma FindAndLockJob_claims_oldest_ready_witness :
  NoDup (map ID Sample.jobs) /\
  (forall r, In r Sample.jobs -> min_int64 <= Attempts r < max_int64) /\
  match FindAndLockJob Sample.jobs 300 301 with
  | (t', (Some job, err)) =>
      err = None /\
      exists row,
        In row Sample.jobs /\ State row = StatePending /\ NextRunAt row <= 300 /\
        (forall k, In k Sample.jobs -> State k = StatePending ->
                   NextRunAt k <= 300 -> CreatedAt row <= CreatedAt k) /\
        job = mkJob (ID row) (Command row) StateProcessing (Attempts row + 1)
                    (MaxRetries row) (CreatedAt row) 301 (NextRunAt row) /\
        t' = map (fun r => if has_id (ID row) r then job else r) Sample.jobs /\
        GetJob t' (ID row) = inl job
  | (t', (None, err)) =>
      err = None /\ t' = Sample.jobs /\
      forall k, In k Sample.jobs ->
                ~ (State k = StatePending /\ NextRunAt k <= 300)
  end.
Proof.
  assert (pk : NoDup (map ID Sample.jobs)).
  { repeat constructor; simpl; intuition discriminate. }
  assert (Hrange : forall r, In r Sample.jobs -> min_int64 <= Attempts r < max_int64).
  { intros r [<-|[<-|[<-|[]]]]; vm_compute; split; congruence. }
  split; [exact pk|]. split; [exact Hrange|].
  exact (FindAndLockJob_claims_oldest_ready Sample.jobs 300 301 pk Hrange).
Defined.

(** The sample claim, evaluated: job1 is taken, not job2 (inserted first but
    younger) nor job3 (older but not ready). *)
Example FindAndLockJob_sample :
  FindAndLockJob Sample.jobs 300 301
  = ([Sample.job2;
      mkJob "job1" "echo job 1 complete" StateProcessing 1 3 100 301 100;
      Sample.job3],
     (Some (mkJob "job1" "echo job 1 complete" StateProcessing 1 3 100 301 100),
      None)).
Proof. vm_compute. reflexivity. Qed.

(** Why the attempts are taken below the largest [int]: there [attempts++]
    wraps to the smallest. *)
Example FindAndLockJob_attempts_wrap :
  FindAndLockJob [Sample.pending "job1" "exit 1" max_int64 3 100 100] 300 301
  = ([mkJob "job1" "exit 1" StateProcessing min_int64 3 100 301 100],
     (Some (mkJob "job1" "exit 1" StateProcessing min_int64 3 100 301 100),
      None)).
Proof. vm_compute. reflexivity. Qed.

(** ** [GetJob] and [UpdateJob] on a table with a primary key *)

Lemma GetJob_In (t : Table) (job : Job) :
  NoDup (map ID t) -> In job t -> GetJob t (ID job) = inl job.
Proof.
  intros pk Hin. unfold GetJob.
  destruct (find (has_id (ID job)) t) as [r|] eqn:E.
  - apply find_some in E. destruct E as [Hr E]. apply has_id_true in E.
    now rewrite (primary_key_inj t pk r job Hr Hin E).
  - apply (find_none _ _ E) in Hin. apply has_id_false in Hin. congruence.
Qed.

Lemma GetJob_inl (t : Table) (id : string) (job : Job) :
  GetJob t id = inl job -> In job t /\ ID job = id.
Proof.
  unfold GetJob. destruct (find (has_id id) t) as [r|] eqn:E; [|discriminate].
  intros [= <-]. apply find_some in E. now rewrite has_id_true in E.
Qed.

Lemma GetJob_absent (t : Table) (id : string) :
  (forall r, In r t -> ID r <> id) -> GetJob t id = inr sql_ErrNoRows.
Proof.
  intros H. unfold GetJob.
  destruct (find (has_id id) t) as [r|] eqn:E; [|reflexivity].
  apply find_some in E. destruct E as [Hr E]. apply has_id_true in E.
  now destruct (H r Hr).
Qed.

Lemma UpdateJob_row (t : Table) (row job : Job) (now : Time) :
  NoDup (map ID t) -> In row t -> ID job = ID row ->
  UpdateJob t job now
  = (map (fun r => if has_id (ID row) r
                   then mkJob (ID row) (Command row) (State job) (Attempts job)
                              (MaxRetries row) (CreatedAt row) now (NextRunAt job)
                   else r) t,
     set_UpdatedAt job now, None).
Proof.
  intros pk Hin Hid. unfold UpdateJob.
  cbn [ID State Attempts UpdatedAt NextRunAt set_UpdatedAt].
  rewrite Hid, (update_where_id_row t pk row) by assumption. reflexivity.
Qed.

(** ** C6: operator retry *)

(** C6. [dlq retry] on the id of a stored job (the table has its primary
    key).  If the job is dead, the command succeeds and the table holds, in
    place of the row, the same id, command, max_retries and created_at with
    state pending, attempts 0, next_run_at the time the command read, and
    updated_at the time of the update; every other row is as before.  If
    the job is in any other state, the command returns an error and the
    table is the same. *)
Theorem dlqRetryCmd_resets_dead_only (t : Table) (job : Job) (now now' : Time) :
  NoDup (map ID t) ->
  In job t ->
  (State job = StateDead ->
   Cmd.dlqRetryCmd t (ID job) now now'
   = (map (fun r => if has_id (ID job) r
                    then mkJob (ID job) (Command job) StatePending 0
                               (MaxRetries job) (CreatedAt job) now' now
                    else r) t,
      None))
  /\
  (State job <> StateDead ->
   Cmd.dlqRetryCmd t (ID job) now now'
   = (t, Some (Errorf "job is not in the DLQ"))).
Proof.
  intros pk Hin. unfold Cmd.dlqRetryCmd. rewrite (GetJob_In t job pk Hin).
  split; intros Hs.
  - rewrite Hs. cbn [JobState_eqb negb].
    rewrite (UpdateJob_row t job _ now' pk Hin) by reflexivity.
    reflexivity.
  - apply JobState_eqb_neq in Hs. now rewrite Hs.
Qed.

Lemma dlqRetryCmd_resets_dead_only_witness :
  Cmd.dlqRetryCmd Sample.dlq "failing-job" 500 501
  = ([Sample.job1;
      mkJob "failing-job" "exit 1" StatePending 0 2 100 501 500], None)
  /\
  Cmd.dlqRetryCmd Sample.dlq "job1" 500 501
  = (Sample.dlq, Some (Errorf "job is not in the DLQ")).
Proof.
  assert (pk : NoDup (map ID Sample.dlq)).
  { repeat constructor; simpl; intuition discriminate. }
  split.
  - apply (dlqRetryCmd_resets_dead_only Sample.dlq Sample.deadJob 500 501 pk).
    + right. left. reflexivity.
    + reflexivity.
  - apply (dlqRetryCmd_resets_dead_only Sample.dlq Sample.job1 500 501 pk).
    + left. reflexivity.
    + discriminate.
Defined.

(** An id that no row has: [GetJob] fails and the table is the same. *)
Lemma dlqRetryCmd_unknown_id (t : Table) (jobID : string) (now now' : Time) :
  (forall r, In r t -> ID r <> jobID) ->
  Cmd.dlqRetryCmd t jobID now now'
  = (t, Some (Errorw "failed to get job" sql_ErrNoRows)).
Proof.
  intros H. unfold Cmd.dlqRetryCmd. now rewrite (GetJob_absent t jobID H).
Qed.

(** ** C7: enqueue *)

Lemma existsb_has_id_false (t : Table) (id : string) :
  (forall r, In r t -> ID r <> id) -> existsb (has_id id) t = false.
Proof.
  intros H. destruct (existsb (has_id id) t) eqn:E; [|reflexivity].
  apply existsb_exists in E. destruct E as (r & Hr & E).
  apply has_id_true in E. now destruct (H r Hr).
Qed.

Lemma existsb_has_id_true (t : Table) (id : string) :
  (exists r, In r t /\ ID r = id) -> existsb (has_id id) t = true.
Proof.
  intros (r & Hr & E). apply existsb_exists. exists r.
  split; [assumption|]. now apply has_id_true.
Qed.

Lemma NewJobFromSpec_inl (spec : Json.text) (maxRetries : Z) (uuid : string)
    (now : Time) (job : Job) :
  NewJobFromSpec spec maxRetries uuid now = inl job ->
  exists p,
    Unmarshal spec (mkPartialJob "" "") = (p, None) /\
    job = mkJob (if String.eqb (partial_ID p) "" then uuid else partial_ID p)
                (partial_Command p) StatePending 0 maxRetries now now now.
Proof.
  unfold NewJobFromSpec.
  destruct (Unmarshal spec (mkPartialJob "" "")) as [p [err|]]; [discriminate|].
  intros [= <-]. now exists p.
Qed.

(** C7. For the job that [NewJobFromSpec] makes of a specification:
    its state is pending, its attempts 0 and its three times are equal; if
    no row has its id, [Enqueue] succeeds and the table is the old one with
    that job as one more row; if a row has its id, [Enqueue] returns the
    error of the primary key and the table is the same. *)
Theorem Enqueue_inserts_new_or_refuses_duplicate (spec : Json.text)
    (maxRetries : Z) (uuid : string) (now : Time) (job : Job) (t : Table) :
  NewJobFromSpec spec maxRetries uuid now = inl job ->
  (State job = StatePending /\ Attempts job = 0 /\
   NextRunAt job = CreatedAt job /\ CreatedAt job = UpdatedAt job) /\
  ((forall r, In r t -> ID r <> ID job) ->
   Enqueue t job = (t ++ [job], None)) /\
  ((exists r, In r t /\ ID r = ID job) ->
   Enqueue t job = (t, Some sqlite_ErrConstraintUnique)).
Proof.
  intros H. apply NewJobFromSpec_inl in H. destruct H as (p & _ & ->).
  split; [now repeat split|]. unfold Enqueue. split; intros Hid.
  - now rewrite (existsb_has_id_false _ _ Hid).
  - now rewrite (existsb_has_id_true _ _ Hid).
Qed.

Lemma Enqueue_inserts_new_or_refuses_duplicate_witness :
  let spec := Json.WellFormed
                (Json.Object [("id"%string, Json.Str "job1");
                              ("command"%string, Json.Str "echo job 1 complete")]) in
  let job := mkJob "job1" "echo job 1 complete" StatePending 0 3 100 100 100 in
  NewJobFromSpec spec 3 "1a2b3c4d" 100 = inl job /\
  Enqueue [Sample.job2] job = ([Sample.job2; job], None) /\
  Enqueue Sample.jobs job = (Sample.jobs, Some sqlite_ErrConstraintUnique).
Proof.
  intros spec job.
  assert (H : NewJobFromSpec spec 3 "1a2b3c4d" 100 = inl job) by reflexivity.
  split; [exact H|].
  pose proof (Enqueue_inserts_new_or_refuses_duplicate
                spec 3 "1a2b3c4d" 100 job) as T.
  split.
  - apply (proj1 (proj2 (T [Sample.job2] H))).
    intros r [<-|[]]. discriminate.
  - apply (proj2 (proj2 (T Sample.jobs H))).
    exists Sample.job1. split; [right; left; reflexivity|reflexivity].
Defined.

(** The same through the command: a duplicate id leaves the table as it
    was. *)
Lemma enqueueCmd_duplicate (cfg : Config.Config) (t : Table) (spec : Json.text)
    (uuid : string) (now : Time) (job : Job) :
  NewJobFromSpec spec (Config.MaxRetries cfg) uuid now = inl job ->
  (exists r, In r t /\ ID r = ID job) ->
  Cmd.enqueueCmd cfg t spec uuid now
  = (t, Some (Errorw "failed to enqueue job" sqlite_ErrConstraintUnique)).
Proof.
  intros H Hid. unfold Cmd.enqueueCmd. rewrite H.
  unfold Enqueue. now rewrite (existsb_has_id_true _ _ Hid).
Qed.

(** ** C8: what the enqueue command validates *)

Lemma decode_members_no_command (ms : list (string * Json.value))
    (p : partialJob) (err : option error) :
  (forall k v, In (k, v) ms -> Json.EqualFold k "command" = false) ->
  partial_Command (fst (decode_members ms p err)) = partial_Command p.
Proof.
  revert p err. induction ms as [|[k v] ms IH]; intros p err H; [reflexivity|].
  cbn [decode_members].
  assert (Hk : Json.EqualFold k "command" = false) by (apply (H k v); now left).
  assert (Hms : forall k v, In (k, v) ms -> Json.EqualFold k "command" = false)
    by (intros k' v' Hin; apply (H k' v'); now right).
  destruct (Json.EqualFold k "id").
  - destruct (Json.decode_string v (partial_ID p) err) as [s e].
    now rewrite IH.
  - rewrite Hk. now apply IH.
Qed.

(** The claim fails: a specification with an id and no command is accepted
    and a row with the empty command is inserted. *)
Lemma enqueueCmd_accepts_missing_command :
  Cmd.enqueueCmd Sample.defaultCfg []
    (Json.WellFormed (Json.Object [("id"%string, Json.Str "job1")])) "1a2b3c4d" 100
  = ([mkJob "job1" "" StatePending 0 3 100 100 100], None).
Proof. reflexivity. Qed.

(** C8, amended.  A specification that [json.Unmarshal] refuses (text that is
    not JSON, a value that is neither an object nor null, an id or command
    that is not a string) is rejected with that error and the table is the
    same.  A specification that is an object without a command key, decodes
    without error and has an id no row has, is accepted: the row inserted
    has the empty command. *)
Theorem enqueueCmd_rejects_only_undecodable (cfg : Config.Config) (t : Table)
    (spec : Json.text) (uuid : string) (now : Time) :
  (forall err,
      snd (Unmarshal spec (mkPartialJob "" "")) = Some err ->
      Cmd.enqueueCmd cfg t spec uuid now
      = (t, Some (Errorw "invalid job spec" err)))
  /\
  (forall ms p,
      spec = Json.WellFormed (Json.Object ms) ->
      (forall k v, In (k, v) ms -> Json.EqualFold k "command" = false) ->
      Unmarshal spec (mkPartialJob "" "") = (p, None) ->
      let id := if String.eqb (partial_ID p) "" then uuid else partial_ID p in
      (forall r, In r t -> ID r <> id) ->
      Cmd.enqueueCmd cfg t spec uuid now
      = (t ++ [mkJob id "" StatePending 0 (Config.MaxRetries cfg) now now now],
         None)).
Proof.
  split.
  - intros err H. unfold Cmd.enqueueCmd, NewJobFromSpec.
    destruct (Unmarshal spec (mkPartialJob "" "")) as [p e].
    simpl in H. now subst e.
  - intros ms p -> Hms Hp id Hid.
    assert (Hc : partial_Command p = ""%string).
    { pose proof (decode_members_no_command ms (mkPartialJob "" "") None Hms) as H.
      cbn [Unmarshal] in Hp. now rewrite Hp in H. }
    unfold Cmd.enqueueCmd, NewJobFromSpec. rewrite Hp, Hc.
    fold id. unfold Enqueue. cbn [ID].
    now rewrite (existsb_has_id_false _ _ Hid).
Qed.

Lemma enqueueCmd_rejects_only_undecodable_witness :
  Cmd.enqueueCmd Sample.defaultCfg Sample.jobs Json.Malformed "1a2b3c4d" 100
  = (Sample.jobs, Some (Errorw "invalid job spec" json_SyntaxError))
  /\
  Cmd.enqueueCmd Sample.defaultCfg Sample.jobs
    (Json.WellFormed (Json.Object [("ID"%string, Json.Str "job9"); ("cmd"%string, Json.Str "ls")]))
    "1a2b3c4d" 100
  = (Sample.jobs ++ [mkJob "job9" "" StatePending 0 3 100 100 100], None).
Proof.
  split.
  - apply (proj1 (enqueueCmd_rejects_only_undecodable
                    Sample.defaultCfg Sample.jobs Json.Malformed "1a2b3c4d" 100)).
    reflexivity.
  - apply (proj2 (enqueueCmd_rejects_only_undecodable
                    Sample.defaultCfg Sample.jobs _ "1a2b3c4d" 100)
                 [("ID"%string, Json.Str "job9"); ("cmd"%string, Json.Str "ls")]
                 (mkPartialJob "job9" "")).
    + reflexivity.
    + intros k v [[= <- <-]|[[= <- <-]|[]]]; reflexivity.
    + reflexivity.
    + intros r [<-|[<-|[<-|[]]]]; discriminate.
Defined.

(** ** C9: what [config set backoff-base] accepts *)

(** The claim fails: the values 0 and -2 are parsed, stored and saved. *)
Lemma configSetCmd_accepts_nonpositive_base :
  Cmd.configSetCmd Sample.defaultCfg None "backoff-base" "0"
  = (Sample.cfg 3 0%float, Some (Config.mkFile 3 0%float), None)
  /\
  Cmd.configSetCmd Sample.defaultCfg None "backoff-base" "-2"
  = (Sample.cfg 3 (-2)%float, Some (Config.mkFile 3 (-2)%float), None).
Proof. split; vm_compute; reflexivity. Qed.

(** C9, amended.  [config set backoff-base] rejects a value before it
    changes anything only when [ParseFloat] fails.  A value that parses
    is stored in the configuration whatever it is; NaN and the infinities are
    then refused by [Save] (the JSON encoder) and the file stays as it was,
    while every other value, those at or below zero included, is written
    to the file without error. *)
Theorem configSetCmd_backoff_base (cfg : Config.Config)
    (file : option Config.File) (value : string) :
  match Strconv.ParseFloat value with
  | inr _ =>
      Cmd.configSetCmd cfg file "backoff-base" value
      = (cfg, file, Some (Errorf "invalid value for backoff-base"))
  | inl base =>
      let cfg' := Config.mkConfig (Config.MaxRetries cfg) base
                                  (Config.DatabasePath cfg) in
      if PrimFloat.is_nan base || PrimFloat.is_infinity base then
        Cmd.configSetCmd cfg file "backoff-base" value
        = (cfg', file,
           Some (Errorw "failed to save config" json_UnsupportedValueError))
      else
        Cmd.configSetCmd cfg file "backoff-base" value
        = (cfg', Some (Config.mkFile (Config.MaxRetries cfg) base), None)
  end.
Proof.
  unfold Cmd.configSetCmd.
  change (String.eqb "backoff-base" "max-retries") with false.
  change (String.eqb "backoff-base" "backoff-base") with true.
  cbv iota.
  destruct (Strconv.ParseFloat value) as [base|err]; [|reflexivity].
  unfold Config.Save. cbn [Config.BackoffBase Config.MaxRetries].
  destruct (PrimFloat.is_nan base || PrimFloat.is_infinity base); reflexivity.
Qed.

(** With a base below zero in the configuration the failure transition
    schedules the retry before the present. *)
Example failureTransition_negative_base :
  NextRunAt
    (Worker.failureTransition (Sample.cfg 3 (-2)%float)
       (mkJob "job1" "exit 1" StateProcessing 1 3 100 301 100) 1000000000000)
  = 1000000000000 - 2 * Second.
Proof. vm_compute. reflexivity. Qed.

(** NaN and the infinities do not reach the file. *)
Example configSetCmd_nan :
  Cmd.configSetCmd Sample.defaultCfg None "backoff-base" "NaN"
  = (Sample.cfg 3 PrimFloat.nan, None,
     Some (Errorw "failed to save config" json_UnsupportedValueError)).
Proof. vm_compute. reflexivity. Qed.

(** ** The failure transition *)

Lemma failureTransition_dead (cfg : Config.Config) (job : Job) (now : Time) :
  MaxRetries job <= Attempts job ->
  Worker.failureTransition cfg job now = set_State job StateDead.
Proof.
  intros H. unfold Worker.failureTransition.
  destruct (Attempts job >=? MaxRetries job) eqn:E; [reflexivity|].
  rewrite Z.geb_leb in E. apply Z.leb_gt in E. lia.
Qed.

Lemma failureTransition_pending (cfg : Config.Config) (job : Job) (now : Time) :
  Attempts job < MaxRetries job ->
  Worker.failureTransition cfg job now
  = mkJob (ID job) (Command job) StatePending (Attempts job) (MaxRetries job)
          (CreatedAt job) (UpdatedAt job)
          (now + Worker.backoffDuration cfg job).
Proof.
  intros H. unfold Worker.failureTransition.
  destruct (Attempts job >=? MaxRetries job) eqn:E; [|reflexivity].
  rewrite Z.geb_leb in E. apply Z.leb_le in E. lia.
Qed.

(** The state [handleFailure] hands to [UpdateJob] is never failed: the
    assignment of [StateFailed] is overwritten before the call. *)
Lemma failureTransition_state (cfg : Config.Config) (job : Job) (now : Time) :
  State (Worker.failureTransition cfg job now) = StateDead /\
    MaxRetries job <= Attempts job
  \/
  State (Worker.failureTransition cfg job now) = StatePending /\
    Attempts job < MaxRetries job.
Proof.
  destruct (Z_le_gt_dec (MaxRetries job) (Attempts job)) as [H|H].
  - left. now rewrite failureTransition_dead.
  - right. rewrite failureTransition_pending by lia. split; [reflexivity|lia].
Qed.

Lemma failureTransition_fields (cfg : Config.Config) (job : Job) (now : Time) :
  let job' := Worker.failureTransition cfg job now in
  ID job' = ID job /\ Command job' = Command job /\
  Attempts job' = Attempts job /\ MaxRetries job' = MaxRetries job /\
  CreatedAt job' = CreatedAt job.
Proof.
  unfold Worker.failureTransition.
  destruct (Attempts job >=? MaxRetries job); now repeat split.
Qed.

(** The delay depends on the job through its attempts only. *)
Lemma backoffDuration_eq (cfg : Config.Config) (job : Job) :
  Worker.backoffDuration cfg job
  = int_mul (int64_of_float (Pow (Config.BackoffBase cfg)
                                 (float64_of_int (Attempts job)))) Second.
Proof. reflexivity. Qed.

Lemma int64_of_float_is_int (f : float64) : is_int (int64_of_float f).
Proof.
  unfold int64_of_float.
  assert (Hmin : is_int min_int64)
    by (unfold is_int, min_int64, max_int64; lia).
  destruct (trunc_float f) as [v|]; [|exact Hmin].
  destruct (is_intb v) eqn:E; [|exact Hmin]. now apply is_intb_spec.
Qed.

(** Whatever the base, the delay is a whole number of seconds (up to the
    wrap-around of the product): the fraction of the power is lost. *)
Lemma backoffDuration_whole_seconds (cfg : Config.Config) (job : Job) :
  exists k, is_int k /\ Worker.backoffDuration cfg job = wrap64 (k * Second).
Proof.
  exists (int64_of_float (Pow (Config.BackoffBase cfg)
                              (float64_of_int (Attempts job)))).
  split; [apply int64_of_float_is_int|reflexivity].
Qed.

Lemma in_range (n : nat) (a : Z) :
  0 <= a < Z.of_nat n -> In a (map Z.of_nat (seq 0 n)).
Proof.
  intros H. rewrite <- (Z2Nat.id a) by lia.
  apply in_map, in_seq. lia.
Qed.

(** With the default base 2 the delay is [2 ^ attempts] seconds as long as
    it fits the 64 bits of a [Duration]: up to 33 attempts. *)
Lemma backoffDuration_default_base (maxRetries : Z) (job : Job) :
  0 <= Attempts job <= 33 ->
  Worker.backoffDuration (Sample.cfg maxRetries Config.DefaultBackoffBase) job
  = 2 ^ Attempts job * Second.
Proof.
  intros H. rewrite backoffDuration_eq. cbn [Config.BackoffBase Sample.cfg].
  assert (Hall : forallb
            (fun a => int_mul (int64_of_float
                                 (Pow Config.DefaultBackoffBase (float64_of_int a)))
                              Second =? 2 ^ a * Second)
            (map Z.of_nat (seq 0 34)) = true) by (vm_compute; reflexivity).
  rewrite forallb_forall in Hall.
  apply Z.eqb_eq, Hall, in_range. lia.
Qed.

Lemma backoffDuration_default_increasing (maxRetries : Z) (job1 job2 : Job) :
  0 <= Attempts job1 < Attempts job2 -> Attempts job2 <= 33 ->
  Worker.backoffDuration (Sample.cfg maxRetries Config.DefaultBackoffBase) job1
  < Worker.backoffDuration (Sample.cfg maxRetries Config.DefaultBackoffBase) job2.
Proof.
  intros H1 H2. rewrite !backoffDuration_default_base by lia.
  apply Z.mul_lt_mono_pos_r; [reflexivity|].
  apply Z.pow_lt_mono_r; lia.
Qed.

(** With base 1 the delay is one second whatever the attempts. *)
Lemma backoffDuration_base_one (maxRetries : Z) (job : Job) :
  Worker.backoffDuration (Sample.cfg maxRetries 1%float) job = Second.
Proof.
  rewrite backoffDuration_eq. cbn [Config.BackoffBase Sample.cfg].
  unfold Pow.
  change (PrimFloat.eqb 1%float 1%float) with true.
  rewrite orb_true_r. vm_compute. reflexivity.
Qed.

(** ** C3: the delay of a retry *)

(** C3. The code at base 1.5, one attempt of three: the job goes back to
    pending, as the claim says, but its next run is one second after [now];
    the claim's [1.5 ^ 1] seconds is one second and a half.  The power is
    converted to a [Duration], which truncates it to a whole number, before
    it is scaled to seconds. *)
Theorem failureTransition_truncates_backoff (now : Time) :
  let cfg := Sample.cfg 3 1.5%float in
  let job := mkJob "job3-fail" "non_existent_command" StateProcessing 1 3
                   100 301 100 in
  let job' := Worker.failureTransition cfg job now in
  State job' = StatePending /\
  NextRunAt job' = now + 1000000000 /\
  Spec.exact_backoff 1.5%float 1 1500000000 /\
  ~ Spec.exact_backoff 1.5%float 1 (NextRunAt job' - now).
Proof.
  intros cfg job job'. subst job'.
  rewrite failureTransition_pending by (simpl; lia).
  cbn [State NextRunAt].
  assert (Hd : Worker.backoffDuration cfg job = 1000000000)
    by (vm_compute; reflexivity).
  rewrite Hd. replace (now + 1000000000 - now) with 1000000000 by lia.
  split; [reflexivity|]. split; [reflexivity|].
  split; vm_compute; congruence.
Qed.

(** ** C4: the delay as the attempts grow *)

(** C4. The code at base 1.25: after one attempt and after two the delay is
    the same second, where the claim has the second delay longer; it is the
    truncation of C3 ([1.25] and [1.5625] both truncate to 1). *)
Theorem backoffDuration_not_increasing :
  let cfg := Sample.cfg 5 1.25%float in
  let job (attempts : Z) :=
    mkJob "job3-fail" "non_existent_command" StateProcessing attempts 5
          100 301 100 in
  1 < 2 /\ 2 < MaxRetries (job 2) /\
  Worker.backoffDuration cfg (job 1) = Second /\
  Worker.backoffDuration cfg (job 2) = Second /\
  ~ (Worker.backoffDuration cfg (job 1) < Worker.backoffDuration cfg (job 2)).
Proof.
  intros cfg job.
  assert (H1 : Worker.backoffDuration cfg (job 1) = Second)
    by (vm_compute; reflexivity).
  assert (H2 : Worker.backoffDuration cfg (job 2) = Second)
    by (vm_compute; reflexivity).
  rewrite H1, H2. simpl. repeat split; lia.
Qed.

(** The product with [time.Second] wraps: with base 2 the delay after 34
    attempts is negative. *)
Example backoffDuration_wraps :
  let job (attempts : Z) :=
    mkJob "job3-fail" "non_existent_command" StateProcessing attempts 40
          100 301 100 in
  Worker.backoffDuration Sample.defaultCfg (job 33) = 8589934592 * Second /\
  Worker.backoffDuration Sample.defaultCfg (job 34) = - 1266874889709551616.
Proof. split; vm_compute; reflexivity. Qed.

(** ** The lifecycle invariant *)

Import System.

Lemma update_where_id_keys (id : string) (f : Job -> Job) (t : Table) :
  (forall r, ID (f r) = ID r /\ MaxRetries (f r) = MaxRetries r) ->
  keys (update_where_id id f t) = keys t.
Proof.
  intros Hf. unfold keys, update_where_id. rewrite map_map.
  apply map_ext. intros r. destruct (has_id id r); [|reflexivity].
  now destruct (Hf r) as [-> ->].
Qed.

Lemma keys_ids (t : Table) : map fst (keys t) = map ID t.
Proof. unfold keys. rewrite map_map. reflexivity. Qed.

Lemma keys_functional (t : Table) (r : Job) (id : string) (m : Z) :
  NoDup (map ID t) -> In r t -> In (id, m) (keys t) -> ID r = id ->
  MaxRetries r = m.
Proof.
  intros pk Hr Hk E. unfold keys in Hk. apply in_map_iff in Hk.
  destruct Hk as (r' & [= E' <-] & Hr').
  f_equal. apply (primary_key_inj t pk); congruence.
Qed.

Lemma update_where_id_Forall (P : Job -> Prop) (id : string) (f : Job -> Job)
    (t : Table) :
  Forall P t ->
  (forall r, In r t -> ID r = id -> P (f r)) ->
  Forall P (update_where_id id f t).
Proof.
  intros Ht Hf. unfold update_where_id. apply Forall_map.
  apply Forall_forall. intros r Hr.
  destruct (has_id id r) eqn:E.
  - apply Hf; [assumption|]. now apply has_id_true.
  - rewrite Forall_forall in Ht. now apply Ht.
Qed.

(** Writing a job that is a copy of a row and satisfies [job_ok] keeps the
    rows as they should be, and changes no key. *)
Lemma UpdateJob_keys (t : Table) (job : Job) (now : Time) :
  keys (fst (fst (UpdateJob t job now))) = keys t.
Proof.
  unfold UpdateJob. cbn [fst]. apply update_where_id_keys. now split.
Qed.

Lemma UpdateJob_rows (t : Table) (job : Job) (now : Time) :
  NoDup (map ID t) -> Forall row_ok t -> held t job ->
  job_ok (State job) (Attempts job) (MaxRetries job) ->
  Forall row_ok (fst (fst (UpdateJob t job now))).
Proof.
  intros pk Hrows Hheld Hjob. unfold UpdateJob. cbn [fst].
  apply update_where_id_Forall; [assumption|].
  intros r Hr E. cbn [ID State Attempts UpdatedAt NextRunAt set_UpdatedAt] in *.
  rewrite Forall_forall in Hrows. destruct (Hrows r Hr) as [Hm _].
  split; [exact Hm|].
  cbn [State Attempts MaxRetries set_State set_Attempts set_UpdatedAt
       set_NextRunAt].
  now rewrite (keys_functional t r _ _ pk Hr Hheld E).
Qed.

Lemma invariant_update (st : state) (job : Job) (now : Time)
    (cl rt : list Job) :
  invariant st ->
  held (table st) job ->
  job_ok (State job) (Attempts job) (MaxRetries job) ->
  Forall (claimed_ok (table st)) cl ->
  Forall (retrying_ok (table st)) rt ->
  invariant (mkState (fst (fst (UpdateJob (table st) job now))) cl rt).
Proof.
  intros [pk Hrows _ _] Hheld Hjob Hcl Hrt.
  pose proof (UpdateJob_keys (table st) job now) as Hk.
  split; cbn [table claimed retrying].
  - now rewrite <- keys_ids, Hk, keys_ids.
  - now apply UpdateJob_rows.
  - revert Hcl. apply Forall_impl. unfold claimed_ok, held. now rewrite Hk.
  - revert Hrt. apply Forall_impl. unfold retrying_ok, held. now rewrite Hk.
Qed.

Lemma Forall_remove_middle (P : Job -> Prop) (l1 l2 : list Job) (x : Job) :
  Forall P (l1 ++ x :: l2) -> P x /\ Forall P (l1 ++ l2).
Proof.
  intros H. split; [now apply Forall_elt in H|].
  apply Forall_app in H. destruct H as [H1 H2].
  apply Forall_app. split; [assumption|]. now inversion H2.
Qed.

Lemma enqueueCmd_ok (cfg : Config.Config) (t t' : Table) (spec : Json.text)
    (uuid : string) (now : Time) :
  Cmd.enqueueCmd cfg t spec uuid now = (t', None) ->
  exists job,
    NewJobFromSpec spec (Config.MaxRetries cfg) uuid now = inl job /\
    existsb (has_id (ID job)) t = false /\ t' = t ++ [job].
Proof.
  unfold Cmd.enqueueCmd.
  destruct (NewJobFromSpec spec (Config.MaxRetries cfg) uuid now) as [job|err];
    [|discriminate].
  unfold Enqueue. destruct (existsb (has_id (ID job)) t) eqn:E; [discriminate|].
  intros [= <-]. now exists job.
Qed.

Lemma FindAndLockJob_some (t t' : Table) (now now' : Time) (job : Job)
    (err : option error) :
  FindAndLockJob t now now' = (t', (Some job, err)) ->
  exists row,
    In row t /\ State row = StatePending /\
    job = mkJob (ID row) (Command row) StateProcessing (int_add (Attempts row) 1)
                (MaxRetries row) (CreatedAt row) now' (NextRunAt row) /\
    t' = update_where_id (ID row)
           (fun r => set_Attempts
                       (set_UpdatedAt (set_State r StateProcessing) now')
                       (int_add (Attempts row) 1)) t.
Proof.
  unfold FindAndLockJob.
  destruct (order_by_created (filter (ready now) t)) as [|row rest] eqn:E;
    [discriminate|].
  destruct (first_ready_spec _ _ _ _ E) as (Hin & Hs & _).
  intros [= <- <- <-]. now exists row.
Qed.

Lemma job_ok_claim (row : Job) :
  row_ok row -> State row = StatePending ->
  job_ok StateProcessing (int_add (Attempts row) 1) (MaxRetries row) /\
  (1 <= MaxRetries row -> int_add (Attempts row) 1 <= MaxRetries row).
Proof.
  intros [Hm (_ & Ha & Hok)] Hs.
  assert (Hle : 1 <= MaxRetries row -> int_add (Attempts row) 1 <= MaxRetries row).
  { intros H1. destruct (Hok H1) as [Hp _]. specialize (Hp Hs).
    rewrite int_add_1; unfold is_int in *; lia. }
  split; [|exact Hle].
  split; [discriminate|]. split; [apply wrap64_is_int|].
  intros H1. split; [discriminate|]. intros _. now apply Hle.
Qed.

(** An update that the database refuses leaves the table as it was. *)
Lemma processJob_refused (cfg : Config.Config) (t : Table) (job : Job)
    (failed : bool) (now now' : Time) (err : error) :
  fst (Worker.processJob cfg t job failed now now' (SQLiteStore.Refuses err))
  = t.
Proof. now destruct failed. Qed.

(** An update that the database runs is [Store.UpdateJob] on the job that
    [processJob] has made. *)
Lemma processJob_runs (cfg : Config.Config) (t : Table) (job : Job)
    (failed : bool) (now now' : Time) :
  fst (Worker.processJob cfg t job failed now now' SQLiteStore.Runs)
  = fst (fst (UpdateJob t
                (if failed then Worker.failureTransition cfg job now
                 else set_State job StateCompleted) now')).
Proof. now destruct failed. Qed.

Theorem step_invariant (st st' : state) :
  invariant st -> step st st' -> invariant st'.
Proof.
  intros Hinv Hstep. destruct Hstep.
  - (* enqueue *)
    destruct Hinv as [pk Hrows Hcl Hrt].
    apply enqueueCmd_ok in H0. destruct H0 as (job & Hjob & Hfresh & ->).
    apply NewJobFromSpec_inl in Hjob. destruct Hjob as (p & _ & Hjob).
    assert (Hk : keys (table st ++ [job]) = keys (table st) ++ keys [job])
      by apply map_app.
    split; cbn [table claimed retrying].
    + rewrite map_app. apply NoDup_app; [assumption| |].
      * simpl. constructor; [tauto|constructor].
      * intros id Hid [<-|[]].
        apply in_map_iff in Hid. destruct Hid as (r & E & Hr).
        assert (Hex : existsb (has_id (ID job)) (table st) = true)
          by (apply existsb_has_id_true; now exists r).
        congruence.
    + apply Forall_app. split; [assumption|]. constructor; [|constructor].
      subst job. split; [assumption|]. cbn [State Attempts MaxRetries].
      split; [discriminate|]. split; [unfold is_int, min_int64, max_int64; lia|].
      intros H1. split; intros _; lia.
    + revert Hcl. apply Forall_impl. unfold claimed_ok, held. intros c.
      rewrite Hk, in_app_iff. tauto.
    + revert Hrt. apply Forall_impl. unfold retrying_ok, held. intros c.
      rewrite Hk, in_app_iff. tauto.
  - (* claim *)
    destruct Hinv as [pk Hrows Hcl Hrt].
    apply FindAndLockJob_some in H. destruct H as (row & Hin & Hs & -> & ->).
    assert (Hrow : row_ok row) by (rewrite Forall_forall in Hrows; auto).
    destruct (job_ok_claim row Hrow Hs) as [Hjob Hle].
    assert (Hk : keys (update_where_id (ID row)
                         (fun r => set_Attempts
                                     (set_UpdatedAt (set_State r StateProcessing) now')
                                     (int_add (Attempts row) 1)) (table st))
                 = keys (table st))
      by (apply update_where_id_keys; now split).
    split; cbn [table claimed retrying].
    + now rewrite <- keys_ids, Hk, keys_ids.
    + apply update_where_id_Forall; [assumption|].
      intros r Hr E. rewrite (primary_key_inj _ pk r row Hr Hin E).
      split; [apply Hrow|exact Hjob].
    + constructor.
      * split; [apply wrap64_is_int|]. split; [exact Hle|].
        unfold held. rewrite Hk. cbn [ID MaxRetries].
        apply (in_map (fun r => (ID r, MaxRetries r))). exact Hin.
      * revert Hcl. apply Forall_impl. unfold claimed_ok, held. now rewrite Hk.
    + revert Hrt. apply Forall_impl. unfold retrying_ok, held. now rewrite Hk.
  - (* a worker writes the outcome of a claimed job *)
    pose proof (inv_claimed st Hinv) as Hcl. rewrite H in Hcl.
    apply Forall_remove_middle in Hcl. destruct Hcl as [(Ha & Hle & Hheld) Hcl].
    pose proof (inv_retrying st Hinv) as Hrt.
    destruct update as [|err];
      [rewrite processJob_runs
      |rewrite processJob_refused; destruct Hinv; now split].
    destruct failed.
    + destruct (failureTransition_fields cfg job now) as (Hi & _ & Hat & Hmx & _).
      set (job' := Worker.failureTransition cfg job now) in *.
      apply invariant_update; try assumption.
      * unfold held. now rewrite Hi, Hmx.
      * rewrite Hat, Hmx.
        destruct (failureTransition_state cfg job now) as [[Hst Hd]|[Hst Hp]];
          fold job' in Hst; rewrite Hst.
        -- split; [discriminate|]. split; [assumption|]. intros _.
           split; [discriminate|congruence].
        -- split; [discriminate|]. split; [assumption|]. intros _.
           split; intros _; lia.
    + apply invariant_update; try assumption.
      cbn [State Attempts MaxRetries set_State].
      split; [discriminate|]. split; [assumption|]. intros H1.
      split; [discriminate|]. intros _. now apply Hle.
  - (* dlq retry reads a dead job *)
    destruct Hinv as [pk Hrows Hcl Hrt].
    apply GetJob_inl in H. destruct H as [Hin _].
    split; cbn [table claimed retrying]; try assumption.
    constructor; [|assumption].
    split; [reflexivity|]. split; [reflexivity|].
    unfold held. cbn [ID MaxRetries Cmd.resetForRetry set_State set_Attempts
                      set_NextRunAt].
    apply (in_map (fun r => (ID r, MaxRetries r))). exact Hin.
  - (* dlq retry writes the job it has reset *)
    pose proof (inv_retrying st Hinv) as Hrt. rewrite H in Hrt.
    apply Forall_remove_middle in Hrt. destruct Hrt as [(Hs & Ha & Hheld) Hrt].
    apply invariant_update; try assumption.
    + rewrite Hs, Ha. split; [discriminate|].
      split; [unfold is_int, min_int64, max_int64; lia|].
      intros H1. split; intros _; lia.
    + apply (inv_claimed st Hinv).
Qed.

Theorem reachable_invariant (st : state) : reachable st -> invariant st.
Proof.
  induction 1 as [|st st' _ IH Hstep].
  - split; simpl; constructor.
  - now apply (step_invariant st st').
Qed.

(** The [dlq retry] command that succeeds is two steps of the system: the
    read of the dead job and the write of the job reset. *)
Lemma dlqRetryCmd_steps (st : state) (jobID : string) (now now' : Time)
    (t' : Table) :
  Cmd.dlqRetryCmd (table st) jobID now now' = (t', None) ->
  exists st1,
    step st st1 /\ step st1 (mkState t' (claimed st) (retrying st)).
Proof.
  unfold Cmd.dlqRetryCmd.
  destruct (GetJob (table st) jobID) as [job|err] eqn:E; [|discriminate].
  destruct (JobState_eqb (State job) StateDead) eqn:Es; [|discriminate].
  cbn [negb]. apply JobState_eqb_eq in Es.
  destruct (UpdateJob (table st) (Cmd.resetForRetry job now) now')
    as [[t1 job1] [err|]] eqn:Eu; [discriminate|].
  intros [= <-].
  exists (mkState (table st) (claimed st)
                  (Cmd.resetForRetry job now :: retrying st)).
  split.
  - now apply (step_retry_get st jobID now job).
  - pose proof (step_retry_update
                  (mkState (table st) (claimed st)
                           (Cmd.resetForRetry job now :: retrying st))
                  now' [] (Cmd.resetForRetry job now) (retrying st) eq_refl)
      as Hstep.
    cbn [table claimed retrying app] in Hstep. now rewrite Eu in Hstep.
Qed.

(** ** A run: enqueue with max-retries 0, then one claim *)

(** [config set max-retries 0] is accepted. *)
Example configSetCmd_max_retries_zero :
  Cmd.configSetCmd Sample.defaultCfg None "max-retries" "0"
  = (Sample.zeroRetriesCfg, Some (Config.mkFile 0 2%float), None).
Proof. vm_compute. reflexivity. Qed.

Lemma claimedOnce_reachable : reachable Sample.claimedOnce.
Proof.
  apply (reachable_step
           (mkState [mkJob "job1" "exit 1" StatePending 0 0 100 100 100] [] [])).
  - apply (reachable_step init); [apply reachable_init|].
    apply (step_enqueue init Sample.zeroRetriesCfg Sample.zeroRetriesSpec
                        "1a2b3c4d" 100).
    + vm_compute. split; discriminate.
    + reflexivity.
  - apply (step_claim
             (mkState [mkJob "job1" "exit 1" StatePending 0 0 100 100 100] [] [])
             200 201).
    reflexivity.
Qed.

Lemma failedOnce_reachable : reachable Sample.failedOnce.
Proof.
  pose (job0 := mkJob "job3-fail" "non_existent_command" StatePending 0 3
                      100 100 100).
  pose (job1 := mkJob "job3-fail" "non_existent_command" StateProcessing 1 3
                      100 201 100).
  apply (reachable_step (mkState [job1] [job1] [])).
  - apply (reachable_step (mkState [job0] [] [])).
    + apply (reachable_step init); [apply reachable_init|].
      apply (step_enqueue init Sample.defaultCfg Sample.enqueuedSpec
                          "1a2b3c4d" 100).
      * vm_compute. split; discriminate.
      * reflexivity.
    + apply (step_claim (mkState [job0] [] []) 200 201). reflexivity.
  - apply (step_process (mkState [job1] [job1] []) Sample.defaultCfg true
                        300 301 SQLiteStore.Runs [] job1 []).
    reflexivity.
Qed.

(** ** C10: no row is ever in the failed state *)

Lemma filter_none (f : Job -> bool) (t : Table) :
  (forall r, In r t -> f r = false) -> filter f t = [].
Proof.
  induction t as [|r t IH]; intros H; simpl; [reflexivity|].
  rewrite (H r) by now left. apply IH. intros r' Hr'. apply H. now right.
Qed.

(** C10. In every state reached from the empty store by enqueue, claim,
    the workers' updates and dlq retry, no row is in the failed state and
    [ListJobsByState] of failed is the empty list; and the job that
    [handleFailure] hands to [UpdateJob] is never in the failed state. *)
Theorem no_row_is_ever_failed (st : state) :
  reachable st ->
  (forall r, In r (table st) -> State r <> StateFailed) /\
  ListJobsByState (table st) StateFailed = ([], None) /\
  (forall cfg job now,
      State (Worker.failureTransition cfg job now) <> StateFailed).
Proof.
  intros Hreach. apply reachable_invariant in Hreach.
  assert (Hrows : forall r, In r (table st) -> State r <> StateFailed).
  { intros r Hr. pose proof (inv_rows st Hreach) as H.
    rewrite Forall_forall in H. apply (H r Hr). }
  split; [exact Hrows|]. split.
  - unfold ListJobsByState. rewrite filter_none; [reflexivity|].
    intros r Hr. apply JobState_eqb_neq. now apply Hrows.
  - intros cfg job now.
    destruct (failureTransition_state cfg job now) as [[-> _]|[-> _]];
      discriminate.
Qed.

Lemma no_row_is_ever_failed_witness :
  reachable Sample.failedOnce /\
  (forall r, In r (table Sample.failedOnce) -> State r <> StateFailed) /\
  ListJobsByState (table Sample.failedOnce) StateFailed = ([], None) /\
  (forall cfg job now,
      State (Worker.failureTransition cfg job now) <> StateFailed).
Proof.
  split; [exact failedOnce_reachable|].
  exact (no_row_is_ever_failed Sample.failedOnce failedOnce_reachable).
Defined.

(** ** C5: attempts and max_retries *)

(** The claim fails: with max-retries 0 the job claimed once is processing
    with one attempt, more than its max_retries, and it is not dead. *)
Lemma claim_exceeds_zero_maxRetries :
  let job := mkJob "job1" "exit 1" StateProcessing 1 0 100 201 100 in
  reachable Sample.claimedOnce /\ In job (table Sample.claimedOnce) /\
  State job <> StateDead /\ ~ Attempts job <= MaxRetries job.
Proof.
  intros job. split; [exact claimedOnce_reachable|].
  split; [now left|]. split; [discriminate|]. simpl. lia.
Qed.

(** C5, amended.  In every reachable state a job whose max_retries is at
    least 1 has, when it is not dead, no more attempts than max_retries,
    and fewer when it is pending.  A claim yields the job in the
    processing state, never dead, with no more attempts than max_retries
    when that is at least 1.  The failure handler is what makes a job
    dead: it does exactly when the attempts have reached max_retries, and
    otherwise makes it pending. *)
Theorem attempts_within_maxRetries (st : state) :
  reachable st ->
  (forall job, In job (table st) -> 1 <= MaxRetries job ->
     (State job <> StateDead -> Attempts job <= MaxRetries job) /\
     (State job = StatePending -> Attempts job < MaxRetries job)) /\
  (forall now now' t' job err,
     FindAndLockJob (table st) now now' = (t', (Some job, err)) ->
     State job = StateProcessing /\
     (1 <= MaxRetries job -> Attempts job <= MaxRetries job)) /\
  (forall cfg job now,
     (MaxRetries job <= Attempts job ->
      State (Worker.failureTransition cfg job now) = StateDead) /\
     (Attempts job < MaxRetries job ->
      State (Worker.failureTransition cfg job now) = StatePending)).
Proof.
  intros Hreach. apply reachable_invariant in Hreach.
  pose proof (inv_rows st Hreach) as Hrows. rewrite Forall_forall in Hrows.
  split; [|split].
  - intros job Hin H1. destruct (Hrows job Hin) as [_ (_ & _ & Hok)].
    destruct (Hok H1). now split.
  - intros now now' t' job err H.
    apply FindAndLockJob_some in H. destruct H as (row & Hin & Hs & -> & _).
    split; [reflexivity|]. cbn [Attempts MaxRetries].
    now apply job_ok_claim; [apply Hrows|].
  - intros cfg job now. split; intros H.
    + now rewrite failureTransition_dead.
    + now rewrite failureTransition_pending.
Qed.

Lemma attempts_within_maxRetries_witness :
  reachable Sample.failedOnce /\
  (forall job, In job (table Sample.failedOnce) -> 1 <= MaxRetries job ->
     (State job <> StateDead -> Attempts job <= MaxRetries job) /\
     (State job = StatePending -> Attempts job < MaxRetries job)).
Proof.
  split; [exact failedOnce_reachable|].
  exact (proj1 (attempts_within_maxRetries Sample.failedOnce
                  failedOnce_reachable)).
Defined.

(** ** Claims one after the other

    When the calls of [FindAndLockJob] are serialized (each one a
    transaction that runs alone and that the database does not refuse), no
    job is returned twice, and with [M] rows ready, [K] calls at one time
    return [min K M] jobs. *)

Section SerialClaims.

Lemma pending_ids_In (t : Table) (id : string) :
  In id (pending_ids t) <->
  exists r, In r t /\ ID r = id /\ State r = StatePending.
Proof.
  unfold pending_ids. rewrite in_map_iff. split.
  - intros (r & E & Hr). apply filter_In in Hr. destruct Hr as [Hr Hs].
    apply JobState_eqb_eq in Hs. now exists r.
  - intros (r & Hr & E & Hs). exists r. split; [assumption|].
    apply filter_In. split; [assumption|]. now apply JobState_eqb_eq.
Qed.

Lemma FindAndLockJob_ids (t t' : Table) (now now' : Time)
    (res : option Job * option error) :
  FindAndLockJob t now now' = (t', res) -> map ID t' = map ID t.
Proof.
  unfold FindAndLockJob.
  destruct (order_by_created (filter (ready now) t)) as [|row rest].
  - now intros [= <- _].
  - intros [= <- _]. rewrite <- !keys_ids. f_equal.
    apply update_where_id_keys. now split.
Qed.

Lemma FindAndLockJob_pending (t t' : Table) (now now' : Time) (job : Job)
    (err : option error) :
  NoDup (map ID t) ->
  FindAndLockJob t now now' = (t', (Some job, err)) ->
  In (ID job) (pending_ids t) /\
  ~ In (ID job) (pending_ids t') /\
  (forall id, In id (pending_ids t') -> In id (pending_ids t)).
Proof.
  intros pk H. apply FindAndLockJob_some in H.
  destruct H as (row & Hin & Hs & -> & ->). cbn [ID].
  assert (Hrows : forall r', In r' (update_where_id (ID row)
                    (fun r => set_Attempts
                                (set_UpdatedAt (set_State r StateProcessing) now')
                                (int_add (Attempts row) 1)) t) ->
                  State r' = StatePending ->
                  In r' t /\ ID r' <> ID row).
  { intros r' Hr' Hs'. unfold update_where_id in Hr'.
    apply in_map_iff in Hr'. destruct Hr' as (r & <- & Hr).
    destruct (has_id (ID row) r) eqn:E; [discriminate Hs'|].
    apply has_id_false in E. now split. }
  split; [|split].
  - apply pending_ids_In. now exists row.
  - rewrite pending_ids_In. intros (r' & Hr' & E & Hs').
    now destruct (Hrows r' Hr' Hs').
  - intros id. rewrite !pending_ids_In. intros (r' & Hr' & E & Hs').
    exists r'. now destruct (Hrows r' Hr' Hs').
Qed.

Lemma claims_returned_pending (clock : list (Time * Time)) (t : Table) :
  NoDup (map ID t) ->
  forall id, In id (returned_ids (snd (claims t clock))) ->
             In id (pending_ids t).
Proof.
  revert t. induction clock as [|[now now'] clock IH]; intros t pk id;
    cbn [claims]; [intros []|].
  destruct (FindAndLockJob t now now') as [t1 [job err]] eqn:E.
  pose proof (FindAndLockJob_ids _ _ _ _ _ E) as Hids.
  assert (pk1 : NoDup (map ID t1)) by now rewrite Hids.
  specialize (IH t1 pk1 id).
  destruct (claims t1 clock) as [t2 jobs]. cbn [snd returned_ids flat_map] in *.
  destruct job as [job|].
  - destruct (FindAndLockJob_pending _ _ _ _ _ _ pk E) as (Hj & _ & Hsub).
    intros [<-|Hin]; [assumption|]. now apply Hsub, IH.
  - unfold FindAndLockJob in E.
    destruct (order_by_created (filter (ready now) t)); [|discriminate].
    injection E as <- _. exact IH.
Qed.

(** Serialized claims never return a job twice. *)
Theorem serial_claims_distinct (clock : list (Time * Time)) (t : Table) :
  NoDup (map ID t) -> NoDup (returned_ids (snd (claims t clock))).
Proof.
  revert t. induction clock as [|[now now'] clock IH]; intros t pk;
    cbn [claims]; [constructor|].
  destruct (FindAndLockJob t now now') as [t1 [job err]] eqn:E.
  pose proof (FindAndLockJob_ids _ _ _ _ _ E) as Hids.
  assert (pk1 : NoDup (map ID t1)) by now rewrite Hids.
  specialize (IH t1 pk1).
  pose proof (claims_returned_pending clock t1 pk1) as Hsub.
  destruct (claims t1 clock) as [t2 jobs]. cbn [snd returned_ids flat_map] in *.
  destruct job as [job|]; [|exact IH].
  destruct (FindAndLockJob_pending _ _ _ _ _ _ pk E) as (_ & Hnot & _).
  constructor; [|exact IH]. intros Hin. apply Hnot. now apply Hsub.
Qed.

Lemma ready_after_claim (t : Table) (row job : Job) (now : Time) :
  NoDup (map ID t) -> In row t ->
  ready now row = true -> ready now job = false -> ID job = ID row ->
  S (List.length (filter (ready now)
               (map (fun r => if has_id (ID row) r then job else r) t)))
  = List.length (filter (ready now) t).
Proof.
  intros pk Hin Hrow Hjob Hid.
  induction t as [|r t' IH]; [destruct Hin|].
  simpl in pk. inversion pk as [|? ? Hr pk']; subst. cbn [map filter].
  destruct (has_id (ID row) r) eqn:E.
  - apply has_id_true in E.
    assert (r = row).
    { destruct Hin as [->|Hin]; [reflexivity|].
      exfalso. apply Hr. rewrite E. now apply in_map. }
    subst r. rewrite Hjob, Hrow. cbn [List.length].
    assert (Hm : map (fun r => if has_id (ID row) r then job else r) t' = t').
    { rewrite <- (map_id t') at 2. apply map_ext_in. intros r' Hr'.
      destruct (has_id (ID row) r') eqn:E'; [|reflexivity].
      apply has_id_true in E'. exfalso. apply Hr. rewrite <- E'.
      now apply in_map. }
    now rewrite Hm.
  - destruct Hin as [->|Hin].
    + apply has_id_false in E. congruence.
    + specialize (IH pk' Hin).
      destruct (ready now r); cbn [List.length]; now rewrite <- IH.
Qed.

(** [K] serialized claims at one time [now], with [M] rows ready at that
    time, return [min K M] jobs. *)
Theorem serial_claims_count (now : Time) (clock : list (Time * Time))
    (t : Table) :
  NoDup (map ID t) ->
  Forall (fun c => fst c = now) clock ->
  List.length (returned_ids (snd (claims t clock)))
  = Nat.min (List.length clock) (List.length (filter (ready now) t)).
Proof.
  revert t. induction clock as [|[n n'] clock IH]; intros t pk Hclock;
    cbn [claims]; [reflexivity|].
  inversion Hclock as [|? ? Hn Hclock']; subst. cbn [fst] in *.
  destruct (FindAndLockJob t n n') as [t1 [job err]] eqn:E.
  pose proof (FindAndLockJob_ids _ _ _ _ _ E) as Hids.
  assert (pk1 : NoDup (map ID t1)) by now rewrite Hids.
  specialize (IH t1 pk1 Hclock').
  destruct (claims t1 clock) as [t2 jobs]. cbn [snd returned_ids flat_map] in *.
  unfold FindAndLockJob in E.
  destruct (order_by_created (filter (ready n) t)) as [|row rest] eqn:Eo.
  - injection E as <- <- _. apply order_by_created_nil in Eo.
    rewrite Eo in *. cbn [app List.length] in *. rewrite IH.
    now rewrite !Nat.min_0_r.
  - destruct (first_ready_spec _ _ _ _ Eo) as (Hin & Hs & Hn & _).
    injection E as <- <- _.
    rewrite (update_where_id_row t pk row) in IH by assumption.
    cbn [app List.length]. rewrite IH.
    rewrite <- (ready_after_claim t row
                  (set_Attempts (set_UpdatedAt (set_State row StateProcessing) n')
                                (int_add (Attempts row) 1))
                  n pk Hin); [reflexivity| | |].
    + apply ready_spec. now split.
    + reflexivity.
    + reflexivity.
Qed.

End SerialClaims.

(** ** C1: claims at the same time *)

Section ConcurrentClaims.

(** What a call returns under the answers of the database: with an error
    the table is as it was; without job and without error the table is as
    it was and no row was ready (database/sql gives [sql.ErrNoRows] for an
    empty result only); a job without error is the job of the statements
    run. *)
Lemma FindAndLockJob_answers (a : SQLiteStore.transaction) (t : Table)
    (now now' : Time) :
  let t' := fst (SQLiteStore.FindAndLockJob a t now now') in
  match snd (SQLiteStore.FindAndLockJob a t now now') with
  | (_, Some _) => t' = t
  | (None, None) =>
      t' = t /\
      (SQLiteStore.QueryRow a <> SQLiteStore.Refuses sql_ErrNoRows ->
       filter (ready now) t = [])
  | (Some job, None) => FindAndLockJob t now now' = (t', (Some job, None))
  end.
Proof.
  unfold SQLiteStore.FindAndLockJob, FindAndLockJob.
  destruct (SQLiteStore.Begin a); [|reflexivity].
  destruct (SQLiteStore.QueryRow a) as [|err].
  - destruct (order_by_created (filter (ready now) t)) as [|row rest] eqn:E.
    + cbn. split; [reflexivity|]. intros _. now apply order_by_created_nil.
    + destruct (SQLiteStore.Exec a); [|reflexivity].
      destruct (SQLiteStore.Commit a); reflexivity.
  - destruct err; cbn; try reflexivity. split; [reflexivity|]. now intros [].
Qed.

Lemma received_cons (result : option Job * option error)
    (results : list (option Job * option error)) :
  received (result :: results)
  = match result with
    | (Some job, None) => job :: received results
    | _ => received results
    end.
Proof. now destruct result as [[job|] [err|]]. Qed.

Lemma refused_cons (result : option Job * option error)
    (results : list (option Job * option error)) :
  refused (result :: results)
  = match snd result with
    | Some _ => S (refused results)
    | None => refused results
    end.
Proof. unfold refused. cbn [filter]. now destruct (snd result). Qed.

Lemma concurrent_claims_length
    (calls : list (SQLiteStore.transaction * (Time * Time))) (t : Table) :
  List.length (snd (concurrent_claims t calls)) = List.length calls.
Proof.
  revert t. induction calls as [|[a [now now']] calls IH]; intros t;
    cbn [concurrent_claims]; [reflexivity|].
  destruct (SQLiteStore.FindAndLockJob a t now now') as [t1 result].
  specialize (IH t1). destruct (concurrent_claims t1 calls) as [t2 results].
  cbn [snd List.length] in *. now rewrite IH.
Qed.

Lemma refused_le (results : list (option Job * option error)) :
  (refused results <= List.length results)%nat.
Proof. apply filter_length_le. Qed.

Lemma concurrent_claims_received_pending
    (calls : list (SQLiteStore.transaction * (Time * Time))) (t : Table) :
  NoDup (map ID t) ->
  forall job, In job (received (snd (concurrent_claims t calls))) ->
              In (ID job) (pending_ids t).
Proof.
  revert t. induction calls as [|[a [now now']] calls IH]; intros t pk job0;
    cbn [concurrent_claims]; [intros []|].
  pose proof (FindAndLockJob_answers a t now now') as Ha.
  destruct (SQLiteStore.FindAndLockJob a t now now') as [t1 [[job|] [err|]]];
    cbn [fst snd] in Ha.
  - subst t1. specialize (IH t pk job0).
    destruct (concurrent_claims t calls) as [t2 results]. exact IH.
  - pose proof (FindAndLockJob_ids _ _ _ _ _ Ha) as Hids.
    assert (pk1 : NoDup (map ID t1)) by now rewrite Hids.
    specialize (IH t1 pk1 job0).
    destruct (concurrent_claims t1 calls) as [t2 results].
    cbn [snd] in *. rewrite received_cons.
    destruct (FindAndLockJob_pending _ _ _ _ _ _ pk Ha) as (Hj & _ & Hsub).
    intros [<-|Hin]; [assumption|]. now apply Hsub, IH.
  - subst t1. specialize (IH t pk job0).
    destruct (concurrent_claims t calls) as [t2 results]. exact IH.
  - destruct Ha as [-> _]. specialize (IH t pk job0).
    destruct (concurrent_claims t calls) as [t2 results]. exact IH.
Qed.

(** A claim takes one row out of those that are ready. *)
Lemma FindAndLockJob_ready_count (t t' : Table) (now now' : Time) (job : Job) :
  NoDup (map ID t) ->
  FindAndLockJob t now now' = (t', (Some job, None)) ->
  S (List.length (filter (ready now) t')) = List.length (filter (ready now) t).
Proof.
  intros pk E. unfold FindAndLockJob in E.
  destruct (order_by_created (filter (ready now) t)) as [|row rest] eqn:Eo;
    [discriminate|].
  destruct (first_ready_spec _ _ _ _ Eo) as (Hin & Hs & Hn & _).
  injection E as <- _.
  rewrite (update_where_id_row t pk row) by assumption.
  apply (ready_after_claim t row _ now pk Hin); [|reflexivity|reflexivity].
  apply ready_spec. now split.
Qed.

(** The claim fails: of two calls at the same time on a table with two
    rows ready, the one that the database refuses (the table is locked by
    the other) returns the error and no job, so one job is returned and
    not two. *)
Lemma concurrent_claims_fewer_than_min :
  let t := [Sample.job1; Sample.job2] in
  let locked :=
    SQLiteStore.mkTransaction SQLiteStore.Runs SQLiteStore.Runs
      (SQLiteStore.Refuses sqlite_ErrBusy) SQLiteStore.Runs in
  let calls := [(SQLiteStore.commits, (300, 301)); (locked, (300, 302))] in
  let results := snd (concurrent_claims t calls) in
  NoDup (map ID t) /\
  List.length (filter (ready 300) t) = 2%nat /\
  List.length calls = 2%nat /\
  results
  = [(Some (mkJob "job1" "echo job 1 complete" StateProcessing 1 3 100 301 100),
      None);
     (None, Some sqlite_ErrBusy)] /\
  List.length (map ID (received results))
  <> Nat.min (List.length calls) (List.length (filter (ready 300) t)).
Proof.
  intros t locked calls results.
  split; [repeat constructor; simpl; intuition discriminate|].
  split; [reflexivity|]. split; [reflexivity|]. split; [reflexivity|].
  vm_compute. discriminate.
Qed.

(** C1, amended.  The calls of [FindAndLockJob] by workers that run at the
    same time, in the order in which the database takes their
    transactions, each with any answers of the database: no job is received
    by two callers, and each job received is the job of a row that was
    pending.  When the calls query at one time [now] at which [M] rows are
    ready, and [F] of the [K] calls return an error, [min (K - F) M] calls
    receive a job: never more than [min K M], and [min K M] when no call
    returns an error. *)
Theorem concurrent_claims_distinct
    (calls : list (SQLiteStore.transaction * (Time * Time))) (t : Table) :
  NoDup (map ID t) ->
  let results := snd (concurrent_claims t calls) in
  NoDup (map ID (received results)) /\
  (forall job, In job (received results) -> In (ID job) (pending_ids t)) /\
  forall now,
    Forall (fun c => fst (snd c) = now /\
                     SQLiteStore.QueryRow (fst c)
                     <> SQLiteStore.Refuses sql_ErrNoRows) calls ->
    let K := List.length calls in
    let M := List.length (filter (ready now) t) in
    let F := refused results in
    List.length (received results) = Nat.min (K - F) M /\
    (List.length (received results) <= Nat.min K M)%nat /\
    (F = 0%nat -> List.length (received results) = Nat.min K M).
Proof.
  intros pk results. split; [|split].
  - subst results. revert t pk.
    induction calls as [|[a [now now']] calls IH]; intros t pk;
      cbn [concurrent_claims]; [constructor|].
    pose proof (FindAndLockJob_answers a t now now') as Ha.
    destruct (SQLiteStore.FindAndLockJob a t now now') as [t1 [[job|] [err|]]]
      eqn:E; cbn [fst snd] in Ha.
    + subst t1. specialize (IH t pk).
      destruct (concurrent_claims t calls) as [t2 results]. exact IH.
    + pose proof (FindAndLockJob_ids _ _ _ _ _ Ha) as Hids.
      assert (pk1 : NoDup (map ID t1)) by now rewrite Hids.
      specialize (IH t1 pk1).
      pose proof (concurrent_claims_received_pending calls t1 pk1) as Hsub.
      destruct (concurrent_claims t1 calls) as [t2 results].
      cbn [snd] in *. rewrite received_cons. cbn [map].
      destruct (FindAndLockJob_pending _ _ _ _ _ _ pk Ha) as (_ & Hnot & _).
      constructor; [|exact IH]. intros Hin. apply Hnot.
      apply in_map_iff in Hin. destruct Hin as (job' & <- & Hin).
      now apply Hsub.
    + subst t1. specialize (IH t pk).
      destruct (concurrent_claims t calls) as [t2 results]. exact IH.
    + destruct Ha as [-> _]. specialize (IH t pk).
      destruct (concurrent_claims t calls) as [t2 results]. exact IH.
  - now apply concurrent_claims_received_pending.
  - intros now Hcalls K M F.
    assert (H : List.length (received results) = Nat.min (K - F) M).
    { subst results K M F. revert t pk.
      induction Hcalls as [|[a [n n']] calls [Hn Hq] Hcalls IH]; intros t pk;
        cbn [concurrent_claims]; [reflexivity|].
      cbn [fst snd] in Hn, Hq. subst n.
      pose proof (FindAndLockJob_answers a t now n') as Ha.
      destruct (SQLiteStore.FindAndLockJob a t now n') as [t1 [[job|] [err|]]]
        eqn:E; cbn [fst snd] in Ha.
      - subst t1. specialize (IH t pk).
        destruct (concurrent_claims t calls) as [t2 results].
        cbn [snd] in *. rewrite received_cons, refused_cons. cbn [snd List.length].
        rewrite IH. reflexivity.
      - pose proof (FindAndLockJob_ids _ _ _ _ _ Ha) as Hids.
        assert (pk1 : NoDup (map ID t1)) by now rewrite Hids.
        specialize (IH t1 pk1).
        pose proof (concurrent_claims_length calls t1) as Hlen.
        pose proof (FindAndLockJob_ready_count _ _ _ _ _ pk Ha) as Hready.
        destruct (concurrent_claims t1 calls) as [t2 results].
        cbn [snd] in *. rewrite received_cons, refused_cons. cbn [snd List.length].
        pose proof (refused_le results). lia.
      - subst t1. specialize (IH t pk).
        destruct (concurrent_claims t calls) as [t2 results].
        cbn [snd] in *. rewrite received_cons, refused_cons. cbn [snd List.length].
        rewrite IH. reflexivity.
      - destruct Ha as [-> Hnone]. specialize (Hnone Hq).
        specialize (IH t pk).
        destruct (concurrent_claims t calls) as [t2 results].
        cbn [snd] in *. rewrite received_cons, refused_cons. cbn [snd List.length].
        rewrite IH, Hnone. cbn [List.length]. now rewrite !Nat.min_0_r. }
    split; [exact H|].
    pose proof (concurrent_claims_length calls t) as Hlen.
    pose proof (refused_le results) as Hle. fold results in Hlen.
    subst K M F. split; lia.
Qed.

Lemma concurrent_claims_distinct_witness :
  let locked :=
    SQLiteStore.mkTransaction SQLiteStore.Runs SQLiteStore.Runs
      (SQLiteStore.Refuses sqlite_ErrBusy) SQLiteStore.Runs in
  let calls := [(SQLiteStore.commits, (300, 301)); (locked, (300, 302));
                (SQLiteStore.commits, (300, 303))] in
  let results := snd (concurrent_claims Sample.jobs calls) in
  NoDup (map ID Sample.jobs) /\
  map ID (received results) = ["job1"%string; "job2"%string] /\
  refused results = 1%nat /\
  List.length (filter (ready 300) Sample.jobs) = 2%nat /\
  Forall (fun c => fst (snd c) = 300 /\
                   SQLiteStore.QueryRow (fst c)
                   <> SQLiteStore.Refuses sql_ErrNoRows) calls /\
  NoDup (map ID (received results)) /\
  (forall job, In job (received results) ->
               In (ID job) (pending_ids Sample.jobs)) /\
  List.length (received results) = Nat.min (3 - 1) 2 /\
  (List.length (received results) <= Nat.min 3 2)%nat /\
  (1%nat = 0%nat -> List.length (received results) = Nat.min 3 2).
Proof.
  intros locked calls results.
  assert (pk : NoDup (map ID Sample.jobs))
    by (repeat constructor; simpl; intuition discriminate).
  assert (Hcalls : Forall (fun c => fst (snd c) = 300 /\
                                    SQLiteStore.QueryRow (fst c)
                                    <> SQLiteStore.Refuses sql_ErrNoRows) calls)
    by (repeat constructor; discriminate).
  split; [exact pk|]. split; [reflexivity|]. split; [reflexivity|].
  split; [reflexivity|]. split; [exact Hcalls|].
  pose proof (concurrent_claims_distinct calls Sample.jobs pk) as H.
  split; [exact (proj1 H)|]. split; [exact (proj1 (proj2 H))|].
  exact (proj2 (proj2 H) 300 Hcalls).
Defined.

End ConcurrentClaims.

(* ================================================================== *)
(** * Further properties of the store, the worker and the commands     *)
(* ================================================================== *)

(** ** [ListJobsByState] *)

Section Listing.









(** The rows of an iteration are the first rows of the result. *)
Lemma iterated_prefix {A : Type} (next : option nat) (result : list A) :
  exists rest, result = SQLiteStore.iterated next result ++ rest.
Proof.
  destruct next as [n|]; cbn [SQLiteStore.iterated].
  - exists (skipn n result). now rewrite firstn_skipn.
  - exists []. now rewrite app_nil_r.
Qed.

(** A loop over rows that ends without error has added every row. *)
Lemma each_row_inl {A B : Type} (scan : nat -> SQLiteStore.answer)
    (add : B -> A -> B) (rows : list A) (i : nat) (acc b : B) :
  SQLiteStore.each_row scan add i rows acc = inl b ->
  b = fold_left add rows acc.
Proof.
  revert i acc. induction rows as [|row rows IH]; intros i acc;
    cbn [SQLiteStore.each_row fold_left].
  - now intros [= <-].
  - destruct (scan i); [apply IH|discriminate].
Qed.




End Listing.

(** ** [GetStatusSummary] and [statusCmd] *)

Section Status.

Lemma lookup_count_in_group (s s' : JobState) (m : Summary) :
  lookup (count_in_group s m) s'
  = if JobState_eqb s s'
    then Some (match lookup m s' with Some c => c + 1 | None => 1 end)
    else lookup m s'.
Proof.
  induction m as [|[k c] m IH].
  - simpl. now destruct (JobState_eqb s s').
  - cbn [count_in_group lookup].
    destruct (JobState_eqb k s) eqn:Eks.
    + apply JobState_eqb_eq in Eks. subst k. cbn [lookup].
      now destruct (JobState_eqb s s').
    + cbn [lookup]. destruct (JobState_eqb k s') eqn:Eks'.
      * apply JobState_eqb_eq in Eks'. subst k.
        destruct (JobState_eqb s s') eqn:E; [|reflexivity].
        apply JobState_eqb_eq in E. subst s'.
        apply JobState_eqb_neq in Eks. congruence.
      * exact IH.
Qed.

Lemma lookup_fold (t : Table) (m : Summary) (state : JobState) :
  lookup (fold_left (fun m r => count_in_group (State r) m) t m) state
  = match lookup m state with
    | Some c => Some (c + rows_in t state)
    | None => if rows_in t state =? 0 then None else Some (rows_in t state)
    end.
Proof.
  unfold rows_in. revert m. induction t as [|r t IH]; intros m.
  - simpl. destruct (lookup m state); [f_equal; lia|reflexivity].
  - cbn [fold_left filter]. rewrite IH, lookup_count_in_group.
    destruct (JobState_eqb (State r) state).
    + cbn [List.length]. rewrite Nat2Z.inj_succ.
      destruct (lookup m state) as [c|].
      * f_equal. lia.
      * destruct (Z.of_nat _ =? 0) eqn:E0; destruct (Z.succ _ =? 0) eqn:E1;
          try (apply Z.eqb_eq in E1; lia); f_equal;
          try apply Z.eqb_eq in E0; lia.
    + reflexivity.
Qed.

(** The result of the query of [GetStatusSummary] has a group for exactly
    the states that some row is in, with the number of rows in the
    state. *)
Lemma GetStatusSummary_result (t : Table) (state : JobState) :
  (lookup (fst (GetStatusSummary t)) state = None <->
   forall r, In r t -> State r <> state) /\
  (forall n, lookup (fst (GetStatusSummary t)) state = Some n ->
     1 <= n /\
     n = Z.of_nat (List.length
                     (filter (fun r => JobState_eqb (State r) state) t))).
Proof.
  cbn [GetStatusSummary fst snd]. rewrite lookup_fold. cbn [lookup].
  fold (rows_in t state). split.
  - destruct (rows_in t state =? 0) eqn:E.
    + split; [intros _|reflexivity]. apply Z.eqb_eq in E. unfold rows_in in E.
      intros r Hr Hs.
      assert (Hin : In r (filter (fun r => JobState_eqb (State r) state) t))
        by (apply filter_In; split; [assumption|now apply JobState_eqb_eq]).
      destruct (filter _ t); [destruct Hin|]. simpl in E. lia.
    + split; [discriminate|]. intros H. exfalso.
      apply Z.eqb_neq in E. apply E. unfold rows_in.
      rewrite filter_none; [reflexivity|].
      intros r Hr. apply JobState_eqb_neq. now apply H.
  - intros n. destruct (rows_in t state =? 0) eqn:E; [discriminate|].
    intros [= <-]. apply Z.eqb_neq in E. unfold rows_in in *. split; lia.
Qed.

Lemma count_in_group_keys (state : JobState) (m : Summary) (k : JobState) :
  In k (map fst (count_in_group state m)) -> k = state \/ In k (map fst m).
Proof.
  induction m as [|[k' c] m IH]; cbn [count_in_group map fst In].
  - intros [<-|[]]. now left.
  - destruct (JobState_eqb k' state); cbn [map fst In]; intuition.
Qed.

Lemma count_in_group_NoDup (state : JobState) (m : Summary) :
  NoDup (map fst m) -> NoDup (map fst (count_in_group state m)).
Proof.
  induction m as [|[k c] m IH]; cbn [count_in_group map fst]; intros H.
  - repeat constructor. intros [].
  - inversion H as [|? ? Hk Hm]; subst.
    destruct (JobState_eqb k state) eqn:E; cbn [map fst].
    + now constructor.
    + constructor; [|now apply IH]. intros Hin.
      apply count_in_group_keys in Hin. destruct Hin as [->|Hin]; [|tauto].
      apply JobState_eqb_neq in E. congruence.
Qed.

Lemma GetStatusSummary_NoDup (t : Table) :
  NoDup (map fst (fst (GetStatusSummary t))).
Proof.
  cbn [GetStatusSummary fst].
  assert (H : forall m, NoDup (map fst m) ->
                NoDup (map fst (fold_left
                                  (fun m r => count_in_group (State r) m) t m))).
  { induction t as [|r t IH]; intros m Hm; cbn [fold_left]; [assumption|].
    now apply IH, count_in_group_NoDup. }
  apply H. constructor.
Qed.

Lemma lookup_assign (m : Summary) (k s : JobState) (count : Z) :
  lookup (SQLiteStore.assign m k count) s
  = if JobState_eqb k s then Some count else lookup m s.
Proof.
  induction m as [|[k' c] m IH]; cbn [SQLiteStore.assign lookup].
  - reflexivity.
  - destruct (JobState_eqb k' k) eqn:Ek; cbn [lookup].
    + apply JobState_eqb_eq in Ek. subst k'.
      now destruct (JobState_eqb k s).
    + destruct (JobState_eqb k' s) eqn:Es; [|exact IH].
      apply JobState_eqb_eq in Es. subst k'.
      destruct (JobState_eqb k s) eqn:E; [|reflexivity].
      apply JobState_eqb_eq in E. subst k.
      apply JobState_eqb_neq in Ek. congruence.
Qed.

Lemma lookup_absent (m : Summary) (s : JobState) :
  ~ In s (map fst m) -> lookup m s = None.
Proof.
  induction m as [|[k c] m IH]; cbn [map fst In lookup]; intros H;
    [reflexivity|].
  destruct (JobState_eqb k s) eqn:E; [|apply IH; tauto].
  apply JobState_eqb_eq in E. tauto.
Qed.

(** Groups of distinct states, put in the map one by one, are the map. *)
Lemma lookup_fold_assign (groups acc : Summary) (s : JobState) :
  NoDup (map fst groups) ->
  lookup (fold_left (fun summary group =>
                       SQLiteStore.assign summary (fst group) (snd group))
                    groups acc) s
  = match lookup groups s with
    | Some count => Some count
    | None => lookup acc s
    end.
Proof.
  revert acc. induction groups as [|[k c] groups IH]; intros acc H;
    cbn [fold_left]; [reflexivity|].
  cbn [map fst] in H. inversion H as [|? ? Hk Hg]; subst.
  rewrite IH by assumption. cbn [fst snd lookup]. rewrite lookup_assign.
  destruct (JobState_eqb k s) eqn:E; [|reflexivity].
  apply JobState_eqb_eq in E. subst k. now rewrite lookup_absent.
Qed.

Lemma lookup_app_l (m rest : Summary) (s : JobState) (count : Z) :
  lookup m s = Some count -> lookup (m ++ rest) s = Some count.
Proof.
  induction m as [|[k c] m IH]; cbn [app lookup]; [discriminate|].
  now destruct (JobState_eqb k s).
Qed.

(** An entry of the map that [GetStatusSummary] returns without an error is
    the number of rows in the state, and at least 1; when the iteration
    breaks off, the states whose groups were not reached have no entry and
    the error is nil all the same.  When the iteration runs to the end, the
    map has an entry for exactly the states that some row is in. *)
Theorem GetStatusSummary_counts (a : SQLiteStore.Rows) (t : Table)
    (summary : Summary) (state : JobState) :
  SQLiteStore.GetStatusSummary a t = (summary, None) ->
  (forall n, lookup summary state = Some n ->
     1 <= n /\
     n = Z.of_nat (List.length
                     (filter (fun r => JobState_eqb (State r) state) t))) /\
  (SQLiteStore.Next a = None ->
   (lookup summary state = None <-> forall r, In r t -> State r <> state)).
Proof.
  intros H.
  destruct (GetStatusSummary_result t state) as (Hnone & Hsome).
  pose proof (GetStatusSummary_NoDup t) as Hnd.
  unfold SQLiteStore.GetStatusSummary in H.
  destruct (SQLiteStore.Query a); [|discriminate].
  destruct (SQLiteStore.each_row _ _ _ _ _) as [summary'|err] eqn:E;
    [|discriminate].
  injection H as <-. apply each_row_inl in E. subst summary'.
  destruct (iterated_prefix (SQLiteStore.Next a) (fst (GetStatusSummary t)))
    as [rest Hrest].
  set (groups := SQLiteStore.iterated (SQLiteStore.Next a)
                   (fst (GetStatusSummary t))) in *.
  assert (Hg : NoDup (map fst groups)).
  { rewrite Hrest, map_app in Hnd. now apply NoDup_app_remove_r in Hnd. }
  rewrite (lookup_fold_assign groups [] state Hg). cbn [lookup].
  assert (Hl : lookup groups state
               = match lookup groups state with
                 | Some count => Some count
                 | None => None
                 end) by now destruct (lookup groups state).
  rewrite <- Hl. clear Hl. split.
  - intros n Hn. apply Hsome. rewrite Hrest. now apply lookup_app_l.
  - intros Hnext. subst groups. rewrite Hnext. exact Hnone.
Qed.

Lemma GetStatusSummary_counts_witness :
  let interrupted := SQLiteStore.mkRows SQLiteStore.Runs (Some 1%nat)
                                        (fun _ => SQLiteStore.Runs) in
  let part := [(StatePending, 1)] in
  let all := [(StatePending, 1); (StateDead, 1)] in
  let dead := Z.of_nat (List.length
                          (filter (fun r => JobState_eqb (State r) StateDead)
                                  Sample.dlq)) in
  SQLiteStore.GetStatusSummary interrupted Sample.dlq = (part, None) /\
  SQLiteStore.GetStatusSummary SQLiteStore.delivers Sample.dlq = (all, None) /\
  lookup part StateDead = None /\
  lookup all StateDead = Some 1 /\
  (forall n, lookup part StateDead = Some n -> 1 <= n /\ n = dead) /\
  (forall n, lookup all StateDead = Some n -> 1 <= n /\ n = dead) /\
  (lookup all StateDead = None <->
   forall r, In r Sample.dlq -> State r <> StateDead).
Proof.
  intros interrupted part all dead.
  pose proof (GetStatusSummary_counts interrupted Sample.dlq part StateDead
                eq_refl) as H1.
  pose proof (GetStatusSummary_counts SQLiteStore.delivers Sample.dlq all
                StateDead eq_refl) as H2.
  split; [reflexivity|]. split; [reflexivity|].
  split; [reflexivity|]. split; [reflexivity|].
  exact (conj (proj1 H1) (conj (proj1 H2) (proj2 H2 eq_refl))).
Defined.



End Status.

(** ** Insert, update and lookup *)

Section RoundTrips.

Lemma find_absent (t : Table) (id : string) :
  existsb (has_id id) t = false -> find (has_id id) t = None.
Proof.
  intros H. destruct (find (has_id id) t) as [r|] eqn:E; [|reflexivity].
  apply find_some in E. destruct E as [Hr E].
  assert (Hex : existsb (has_id id) t = true)
    by (apply existsb_exists; now exists r).
  congruence.
Qed.

Lemma find_app_last (t : Table) (id : string) (job : Job) :
  find (has_id id) (t ++ [job])
  = match find (has_id id) t with
    | Some r => Some r
    | None => if has_id id job then Some job else None
    end.
Proof.
  induction t as [|r t IH]; simpl; [reflexivity|].
  now destruct (has_id id r).
Qed.

(** A job that [Enqueue] accepts is the one [GetJob] returns for its id,
    and [GetJob] returns for every other id what it did before. *)
Theorem Enqueue_then_GetJob (t t' : Table) (job : Job) :
  Enqueue t job = (t', None) ->
  GetJob t' (ID job) = inl job /\
  forall id, id <> ID job -> GetJob t' id = GetJob t id.
Proof.
  unfold Enqueue. destruct (existsb (has_id (ID job)) t) eqn:E; [discriminate|].
  intros [= <-]. unfold GetJob. split.
  - rewrite find_app_last, (find_absent _ _ E).
    assert (H : has_id (ID job) job = true) by now apply has_id_true.
    now rewrite H.
  - intros id Hid. rewrite find_app_last.
    destruct (find (has_id id) t); [reflexivity|].
    assert (H : has_id id job = false) by (apply has_id_false; congruence).
    now rewrite H.
Qed.

Lemma Enqueue_then_GetJob_witness :
  Enqueue [Sample.job2] Sample.job1 = ([Sample.job2; Sample.job1], None) /\
  GetJob [Sample.job2; Sample.job1] "job1" = inl Sample.job1 /\
  forall id, id <> "job1"%string ->
             GetJob [Sample.job2; Sample.job1] id = GetJob [Sample.job2] id.
Proof.
  split; [reflexivity|].
  exact (Enqueue_then_GetJob [Sample.job2] [Sample.job2; Sample.job1]
           Sample.job1 eq_refl).
Defined.

Lemma find_update_where_id (t : Table) (id id' : string) (f : Job -> Job) :
  (forall r, ID (f r) = ID r) ->
  find (has_id id') (update_where_id id f t)
  = if String.eqb id' id then option_map f (find (has_id id) t)
    else find (has_id id') t.
Proof.
  intros Hf. unfold update_where_id.
  induction t as [|r t IH]; cbn [map find].
  - now destruct (String.eqb id' id).
  - destruct (has_id id r) eqn:E.
    + assert (E' : has_id id' (f r) = has_id id' r)
        by (unfold has_id; now rewrite Hf).
      rewrite E'. apply has_id_true in E.
      destruct (String.eqb id' id) eqn:Ei.
      * apply String.eqb_eq in Ei. subst id'.
        assert (H : has_id id r = true) by now apply has_id_true.
        now rewrite H.
      * assert (H : has_id id' r = false).
        { apply has_id_false. apply String.eqb_neq in Ei. congruence. }
        now rewrite H.
    + destruct (String.eqb id' id) eqn:Ei.
      * apply String.eqb_eq in Ei. subst id'. now rewrite E.
      * now destruct (has_id id' r).
Qed.

(** After [UpdateJob], [GetJob] on the job's id returns the stored row with
    the state, attempts and next_run_at of the job and the time of the
    update, and with its own id, command, max_retries and created_at;
    [GetJob] on any other id returns what it did before. *)
Theorem UpdateJob_then_GetJob (t : Table) (row job : Job) (now : Time) :
  GetJob t (ID job) = inl row ->
  let t' := fst (fst (UpdateJob t job now)) in
  snd (UpdateJob t job now) = None /\
  GetJob t' (ID job)
  = inl (mkJob (ID row) (Command row) (State job) (Attempts job)
               (MaxRetries row) (CreatedAt row) now (NextRunAt job)) /\
  forall id, id <> ID job -> GetJob t' id = GetJob t id.
Proof.
  intros Hget t'. subst t'. unfold UpdateJob. cbn [fst snd].
  cbn [ID State Attempts UpdatedAt NextRunAt set_UpdatedAt].
  split; [reflexivity|]. unfold GetJob in *.
  split.
  - rewrite find_update_where_id by reflexivity. rewrite String.eqb_refl.
    destruct (find (has_id (ID job)) t) as [r|]; [|discriminate].
    injection Hget as ->. reflexivity.
  - intros id Hid. rewrite find_update_where_id by reflexivity.
    apply String.eqb_neq in Hid. now rewrite Hid.
Qed.

Lemma UpdateJob_then_GetJob_witness :
  GetJob Sample.dlq "failing-job" = inl Sample.deadJob /\
  GetJob (fst (fst (UpdateJob Sample.dlq
                      (mkJob "failing-job" "ignored" StateCompleted 7 9 1 2 3)
                      600)))
         "failing-job"
  = inl (mkJob "failing-job" "exit 1" StateCompleted 7 2 100 600 3).
Proof.
  split; [reflexivity|].
  exact (proj1 (proj2 (UpdateJob_then_GetJob Sample.dlq Sample.deadJob
                         (mkJob "failing-job" "ignored" StateCompleted 7 9 1 2 3)
                         600 eq_refl))).
Defined.

(** [UpdateJob] of a job whose id no row has changes nothing in the table
    and returns no error. *)
Theorem UpdateJob_unknown_id (t : Table) (job : Job) (now : Time) :
  (forall r, In r t -> ID r <> ID job) ->
  UpdateJob t job now = (t, set_UpdatedAt job now, None).
Proof.
  intros H. unfold UpdateJob. f_equal. f_equal.
  unfold update_where_id. rewrite <- (map_id t) at 2.
  apply map_ext_in. intros r Hr.
  cbn [ID set_UpdatedAt].
  assert (E : has_id (ID job) r = false) by (apply has_id_false; now apply H).
  now rewrite E.
Qed.

Lemma UpdateJob_unknown_id_witness :
  UpdateJob Sample.jobs (mkJob "job9" "ls" StateDead 5 3 1 2 3) 600
  = (Sample.jobs, mkJob "job9" "ls" StateDead 5 3 1 600 3, None).
Proof.
  apply (UpdateJob_unknown_id Sample.jobs).
  intros r [<-|[<-|[<-|[]]]]; discriminate.
Defined.

End RoundTrips.

(** ** The oldest ready job *)

Lemma Job_eq_dec (a b : Job) : {a = b} + {a <> b}.
Proof.
  decide equality; try apply Z.eq_dec; try apply string_dec.
  decide equality.
Defined.

(** A pending row that is ready and older than every other ready pending
    row is the one [FindAndLockJob] claims. *)
Theorem FindAndLockJob_takes_the_oldest (t : Table) (row : Job)
    (now now' : Time) :
  In row t -> State row = StatePending -> NextRunAt row <= now ->
  (forall k, In k t -> k <> row -> State k = StatePending ->
             NextRunAt k <= now -> CreatedAt row < CreatedAt k) ->
  snd (FindAndLockJob t now now')
  = (Some (mkJob (ID row) (Command row) StateProcessing
                 (int_add (Attempts row) 1) (MaxRetries row) (CreatedAt row)
                 now' (NextRunAt row)),
     None).
Proof.
  intros Hin Hs Hn Hold. unfold FindAndLockJob.
  destruct (order_by_created (filter (ready now) t)) as [|r rest] eqn:E.
  - exfalso. apply (no_ready_spec t now E row Hin). now split.
  - destruct (first_ready_spec _ _ _ _ E) as (Hr & Hrs & Hrn & Hmin).
    destruct (Job_eq_dec r row) as [->|Hne]; [reflexivity|].
    specialize (Hold r Hr Hne Hrs Hrn). specialize (Hmin row Hin Hs Hn). lia.
Qed.

Lemma FindAndLockJob_takes_the_oldest_witness :
  snd (FindAndLockJob Sample.jobs 300 301)
  = (Some (mkJob "job1" "echo job 1 complete" StateProcessing 1 3 100 301 100),
     None).
Proof.
  apply (FindAndLockJob_takes_the_oldest Sample.jobs Sample.job1 300 301).
  - right. left. reflexivity.
  - reflexivity.
  - vm_compute. discriminate.
  - intros k [<-|[<-|[<-|[]]]] Hne Hs Hn.
    + vm_compute. reflexivity.
    + now destruct Hne.
    + vm_compute in Hn. now destruct Hn.
Defined.

(** ** How many attempts a job can have *)

Section Attempts.

Lemma runs_bounds (m : Z) : is_int m -> 1 <= runs m <= max_int64.
Proof. unfold runs, is_int, min_int64, max_int64. lia. Qed.

Lemma UpdateJob_bounded (t : Table) (job : Job) (now : Time) :
  NoDup (map ID t) -> Forall row_bounded t -> held t job ->
  attempts_ok (State job) (Attempts job) (MaxRetries job) ->
  Forall row_bounded (fst (fst (UpdateJob t job now))).
Proof.
  intros pk Hrows Hheld Hjob. unfold UpdateJob. cbn [fst].
  apply update_where_id_Forall; [assumption|].
  intros r Hr E. cbn [ID State Attempts UpdatedAt NextRunAt set_UpdatedAt] in *.
  unfold row_bounded.
  cbn [State Attempts MaxRetries set_State set_Attempts set_UpdatedAt
       set_NextRunAt].
  now rewrite (keys_functional t r _ _ pk Hr Hheld E).
Qed.

Lemma failureTransition_bounded (cfg : Config.Config) (job : Job) (now : Time) :
  claimed_bounded job ->
  attempts_ok (State (Worker.failureTransition cfg job now))
              (Attempts job) (MaxRetries job).
Proof.
  unfold claimed_bounded, runs. intros H.
  destruct (failureTransition_state cfg job now) as [[-> Hd]|[-> Hp]];
    unfold attempts_ok, runs; lia.
Qed.

Lemma step_bounded (st st' : state) :
  invariant st -> bounded st -> step st st' -> bounded st'.
Proof.
  intros Hinv [Hrows Hcl] Hstep.
  pose proof (inv_pk st Hinv) as pk.
  destruct Hstep; unfold bounded; cbn [table claimed retrying].
  - (* enqueue *)
    apply enqueueCmd_ok in H0. destruct H0 as (job & Hjob & _ & ->).
    apply NewJobFromSpec_inl in Hjob. destruct Hjob as (p & _ & ->).
    split; [|assumption]. apply Forall_app. split; [assumption|].
    constructor; [|constructor]. unfold row_bounded, attempts_ok, runs.
    cbn [State Attempts MaxRetries]. lia.
  - (* claim *)
    apply FindAndLockJob_some in H. destruct H as (row & Hin & Hs & -> & ->).
    assert (Hrow : row_bounded row) by (rewrite Forall_forall in Hrows; auto).
    assert (Hok : row_ok row).
    { pose proof (inv_rows st Hinv) as H. rewrite Forall_forall in H. auto. }
    unfold row_bounded in Hrow. rewrite Hs in Hrow. cbn [attempts_ok] in Hrow.
    pose proof (runs_bounds _ (proj1 Hok)) as Hruns.
    assert (Ha : int_add (Attempts row) 1 = Attempts row + 1)
      by (apply int_add_1; unfold min_int64; lia).
    split.
    + apply update_where_id_Forall; [assumption|].
      intros r Hr E. rewrite (primary_key_inj _ pk r row Hr Hin E).
      unfold row_bounded.
      cbn [State Attempts MaxRetries set_State set_Attempts set_UpdatedAt
           attempts_ok].
      rewrite Ha. lia.
    + constructor; [|assumption]. unfold claimed_bounded.
      cbn [Attempts MaxRetries]. rewrite Ha. lia.
  - (* a worker writes the outcome *)
    rewrite H in Hcl. apply Forall_remove_middle in Hcl.
    destruct Hcl as [Hjob Hcl]. split; [|assumption].
    pose proof (inv_claimed st Hinv) as Hc. rewrite H in Hc.
    apply Forall_elt in Hc. destruct Hc as (_ & _ & Hheld).
    destruct update as [|err];
      [rewrite processJob_runs|now rewrite processJob_refused].
    destruct failed.
    + destruct (failureTransition_fields cfg job now) as (Hi & _ & Hat & Hmx & _).
      pose proof (failureTransition_bounded cfg job now Hjob) as Hb.
      set (job' := Worker.failureTransition cfg job now) in *.
      apply UpdateJob_bounded; try assumption.
      * unfold held. now rewrite Hi, Hmx.
      * now rewrite Hat, Hmx.
    + apply UpdateJob_bounded; assumption.
  - (* dlq retry reads *)
    now split.
  - (* dlq retry writes *)
    split; [|assumption].
    pose proof (inv_retrying st Hinv) as Hrt. rewrite H in Hrt.
    apply Forall_elt in Hrt. destruct Hrt as (Hs & Ha & Hheld).
    apply UpdateJob_bounded; try assumption.
    rewrite Hs, Ha. unfold attempts_ok, runs. lia.
Qed.

Lemma reachable_bounded (st : state) : reachable st -> bounded st.
Proof.
  induction 1 as [|st st' Hreach IH Hstep].
  - split; constructor.
  - apply (step_bounded st st'); [now apply reachable_invariant| |]; assumption.
Qed.

(** In every reachable state the attempts of a row are between 0 and its
    max_retries, or 1 when max_retries is below 1; a pending row has fewer
    attempts than that, a dead row exactly that many, and a row that is
    processing or completed at least one. *)
Theorem attempts_follow_state (st : state) (r : Job) :
  reachable st -> In r (table st) ->
  0 <= Attempts r <= Z.max 1 (MaxRetries r) /\
  (State r = StatePending -> Attempts r < Z.max 1 (MaxRetries r)) /\
  (State r = StateDead -> Attempts r = Z.max 1 (MaxRetries r)) /\
  (State r = StateProcessing \/ State r = StateCompleted -> 1 <= Attempts r).
Proof.
  intros Hreach Hin. destruct (reachable_bounded st Hreach) as [Hrows _].
  rewrite Forall_forall in Hrows. specialize (Hrows r Hin).
  unfold row_bounded, attempts_ok, runs in Hrows.
  destruct (State r); try contradiction;
    (split; [lia|]);
    (split; [intros; try discriminate; lia|]);
    (split; [intros; try discriminate; lia|]);
    intros [H|H]; try discriminate; lia.
Qed.

Lemma attempts_follow_state_witness :
  let r := mkJob "job3-fail" "non_existent_command" StatePending 1 3
                 100 301 2000000300 in
  reachable Sample.failedOnce /\ In r (table Sample.failedOnce) /\
  0 <= Attempts r <= Z.max 1 (MaxRetries r) /\
  (State r = StatePending -> Attempts r < Z.max 1 (MaxRetries r)) /\
  (State r = StateDead -> Attempts r = Z.max 1 (MaxRetries r)) /\
  (State r = StateProcessing \/ State r = StateCompleted -> 1 <= Attempts r).
Proof.
  intros r.
  assert (Hin : In r (table Sample.failedOnce)) by (left; reflexivity).
  split; [exact failedOnce_reachable|]. split; [exact Hin|].
  exact (attempts_follow_state Sample.failedOnce r failedOnce_reachable Hin).
Defined.

(** In every reachable state [attempts++] of a claim does not wrap: the
    job returned has one attempt more than the pending row it is the copy
    of. *)
Theorem claim_increments_attempts (st : state) (now now' : Time) (t' : Table)
    (job : Job) (err : option error) :
  reachable st ->
  FindAndLockJob (table st) now now' = (t', (Some job, err)) ->
  exists row,
    In row (table st) /\ State row = StatePending /\ ID row = ID job /\
    Attempts job = Attempts row + 1.
Proof.
  intros Hreach H.
  apply FindAndLockJob_some in H. destruct H as (row & Hin & Hs & -> & _).
  exists row. do 3 (split; [assumption || reflexivity|]). cbn [Attempts].
  destruct (reachable_bounded st Hreach) as [Hrows _].
  rewrite Forall_forall in Hrows. specialize (Hrows row Hin).
  unfold row_bounded in Hrows. rewrite Hs in Hrows. cbn [attempts_ok] in Hrows.
  pose proof (inv_rows st (reachable_invariant st Hreach)) as Hok.
  rewrite Forall_forall in Hok. destruct (Hok row Hin) as [Hm _].
  pose proof (runs_bounds _ Hm). apply int_add_1. unfold min_int64. lia.
Qed.

Lemma claim_increments_attempts_witness :
  reachable Sample.failedOnce /\
  FindAndLockJob (table Sample.failedOnce) 3000000000 3000000001
  = ([mkJob "job3-fail" "non_existent_command" StateProcessing 2 3
            100 3000000001 2000000300],
     (Some (mkJob "job3-fail" "non_existent_command" StateProcessing 2 3
                  100 3000000001 2000000300), None)) /\
  exists row,
    In row (table Sample.failedOnce) /\ State row = StatePending /\
    ID row = "job3-fail"%string /\ 2 = Attempts row + 1.
Proof.
  split; [exact failedOnce_reachable|]. split; [reflexivity|].
  exact (claim_increments_attempts Sample.failedOnce 3000000000 3000000001 _ _ _
           failedOnce_reachable eq_refl).
Defined.

End Attempts.

(** ** What no step changes *)

Section Immutable.

Lemma update_where_id_immutable (id : string) (f : Job -> Job) (t : Table) :
  (forall r, immutable (f r) = immutable r) ->
  map immutable (update_where_id id f t) = map immutable t.
Proof.
  intros Hf. unfold update_where_id. rewrite map_map. apply map_ext.
  intros r. now destruct (has_id id r).
Qed.

Lemma UpdateJob_immutable (t : Table) (job : Job) (now : Time) :
  map immutable (fst (fst (UpdateJob t job now))) = map immutable t.
Proof.
  unfold UpdateJob. cbn [fst]. now apply update_where_id_immutable.
Qed.

Lemma processJob_immutable (cfg : Config.Config) (t : Table) (job : Job)
    (failed : bool) (now now' : Time) (update : SQLiteStore.answer) :
  map immutable (fst (Worker.processJob cfg t job failed now now' update))
  = map immutable t.
Proof.
  destruct update as [|err]; [|now rewrite processJob_refused].
  rewrite processJob_runs. apply UpdateJob_immutable.
Qed.

Lemma FindAndLockJob_immutable (t t' : Table) (now now' : Time)
    (res : option Job * option error) :
  FindAndLockJob t now now' = (t', res) -> map immutable t' = map immutable t.
Proof.
  unfold FindAndLockJob.
  destruct (order_by_created (filter (ready now) t)) as [|row rest].
  - now intros [= <- _].
  - intros [= <- _]. now apply update_where_id_immutable.
Qed.

Lemma step_immutable (st st' : state) :
  step st st' ->
  exists new, map immutable (table st') = map immutable (table st) ++ new.
Proof.
  intros Hstep. destruct Hstep; cbn [table].
  - apply enqueueCmd_ok in H0. destruct H0 as (job & _ & _ & ->).
    exists [immutable job]. apply map_app.
  - exists []. rewrite app_nil_r. now apply FindAndLockJob_immutable in H.
  - exists []. rewrite app_nil_r. apply processJob_immutable.
  - exists []. now rewrite app_nil_r.
  - exists []. rewrite app_nil_r. apply UpdateJob_immutable.
Qed.

(** Whatever the steps from one state to another, the rows of the first
    are still there, in their places, with the id, command, max_retries
    and created_at they had: rows are only ever added, at the end. *)
Theorem rows_are_kept (st st' : state) :
  steps st st' ->
  exists new, map immutable (table st') = map immutable (table st) ++ new.
Proof.
  induction 1 as [st|st st1 st2 _ IH Hstep].
  - exists []. now rewrite app_nil_r.
  - destruct IH as [new1 IH]. destruct (step_immutable _ _ Hstep) as [new2 H2].
    exists (new1 ++ new2). now rewrite H2, IH, app_assoc.
Qed.

Lemma rows_are_kept_witness :
  let job0 := mkJob "job3-fail" "non_existent_command" StatePending 0 3
                    100 100 100 in
  steps (mkState [job0] [] []) Sample.failedOnce /\
  exists new,
    map immutable (table Sample.failedOnce) = map immutable [job0] ++ new.
Proof.
  intros job0.
  pose (job1 := mkJob "job3-fail" "non_existent_command" StateProcessing 1 3
                      100 201 100).
  assert (H : steps (mkState [job0] [] []) Sample.failedOnce).
  { apply (steps_step _ (mkState [job1] [job1] [])).
    - apply (steps_step _ (mkState [job0] [] [])); [apply steps_refl|].
      apply (step_claim (mkState [job0] [] []) 200 201). reflexivity.
    - apply (step_process (mkState [job1] [job1] []) Sample.defaultCfg true
                          300 301 SQLiteStore.Runs [] job1 []).
      reflexivity. }
  split; [exact H|]. exact (rows_are_kept _ _ H).
Defined.

End Immutable.

(** ** The loop of a worker *)

Section WorkerLoop.

(** One turn that receives a job, as the table it leaves; a turn that
    receives none leaves the table as it was. *)
Lemma Run_turn (cfg : Config.Config) (t : Table) (k : Worker.turn)
    (turns : list Worker.turn) :
  Worker.Run cfg t (k :: turns)
  = if Worker.done k then t
    else
      match SQLiteStore.FindAndLockJob (Worker.find k) t (Worker.now_find k)
                                       (Worker.now_lock k) with
      | (t', (Some job, None)) =>
          Worker.Run cfg
            (fst (Worker.processJob cfg t' job (Worker.failed k)
                    (Worker.now_fail k) (Worker.now_update k)
                    (Worker.update k))) turns
      | _ => Worker.Run cfg t turns
      end.
Proof.
  cbn [Worker.Run]. destruct (Worker.done k); [reflexivity|].
  pose proof (FindAndLockJob_answers (Worker.find k) t (Worker.now_find k)
                                     (Worker.now_lock k)) as Ha.
  destruct (SQLiteStore.FindAndLockJob (Worker.find k) t (Worker.now_find k)
                                       (Worker.now_lock k))
    as [t' [[job|] [err|]]]; cbn [fst snd] in Ha.
  - now subst t'.
  - now destruct (Worker.processJob cfg t' job (Worker.failed k)
                    (Worker.now_fail k) (Worker.now_update k)
                    (Worker.update k)).
  - now subst t'.
  - destruct Ha as [-> _]. reflexivity.
Qed.

(** The turns of a worker are steps of the system: from a reachable state
    the loop of [Run] leaves a reachable state, so what holds of every
    reachable state holds while workers run. *)
Theorem Run_reachable (cfg : Config.Config) (turns : list Worker.turn)
    (t : Table) (cl rt : list Job) :
  reachable (mkState t cl rt) ->
  reachable (mkState (Worker.Run cfg t turns) cl rt).
Proof.
  revert t. induction turns as [|k turns IH]; intros t Hreach; [exact Hreach|].
  rewrite Run_turn. destruct (Worker.done k); [exact Hreach|].
  pose proof (FindAndLockJob_answers (Worker.find k) t (Worker.now_find k)
                                     (Worker.now_lock k)) as Ha.
  destruct (SQLiteStore.FindAndLockJob (Worker.find k) t (Worker.now_find k)
                                       (Worker.now_lock k))
    as [t' [[job|] [err|]]]; cbn [fst snd] in Ha; try now apply IH.
  apply IH.
  apply (reachable_step (mkState t' (job :: cl) rt)).
  - apply (reachable_step (mkState t cl rt)); [assumption|].
    now apply (step_claim (mkState t cl rt) (Worker.now_find k)
                          (Worker.now_lock k)).
  - apply (step_process (mkState t' (job :: cl) rt) cfg (Worker.failed k)
                        (Worker.now_fail k) (Worker.now_update k)
                        (Worker.update k) [] job cl).
    reflexivity.
Qed.

Lemma Run_reachable_witness :
  let job0 := mkJob "job3-fail" "non_existent_command" StatePending 0 3
                    100 100 100 in
  let locked :=
    SQLiteStore.mkTransaction SQLiteStore.Runs SQLiteStore.Runs
      (SQLiteStore.Refuses sqlite_ErrBusy) SQLiteStore.Runs in
  let turns := [Worker.mkTurn false 150 151 true 160 161
                              locked SQLiteStore.Runs;
                Worker.mkTurn false 200 201 true 300 301
                              SQLiteStore.commits SQLiteStore.Runs;
                Worker.mkTurn false 400 401 true 500 501
                              SQLiteStore.commits SQLiteStore.Runs;
                Worker.mkTurn true 0 0 false 0 0
                              SQLiteStore.commits SQLiteStore.Runs] in
  reachable (mkState [job0] [] []) /\
  Worker.Run Sample.defaultCfg [job0] turns = table Sample.failedOnce /\
  reachable (mkState (Worker.Run Sample.defaultCfg [job0] turns) [] []).
Proof.
  intros job0 locked turns.
  assert (H : reachable (mkState [job0] [] [])).
  { apply (reachable_step init); [apply reachable_init|].
    apply (step_enqueue init Sample.defaultCfg Sample.enqueuedSpec
                        "1a2b3c4d" 100).
    - vm_compute. split; discriminate.
    - reflexivity. }
  split; [exact H|]. split; [vm_compute; reflexivity|].
  exact (Run_reachable Sample.defaultCfg turns [job0] [] [] H).
Defined.

(** What [processJob] writes, when the database runs the update, is a job
    of the same id that is completed, pending or dead. *)
Lemma processJob_writes (cfg : Config.Config) (t : Table) (job : Job)
    (failed : bool) (nf nu : Time) :
  exists job',
    ID job' = ID job /\ State job' <> StateProcessing /\
    fst (Worker.processJob cfg t job failed nf nu SQLiteStore.Runs)
    = fst (fst (UpdateJob t job' nu)).
Proof.
  rewrite processJob_runs. destruct failed.
  - exists (Worker.failureTransition cfg job nf).
    split; [apply failureTransition_fields|]. split; [|reflexivity].
    destruct (failureTransition_state cfg job nf) as [[-> _]|[-> _]];
      discriminate.
  - exists (set_State job StateCompleted).
    split; [reflexivity|]. split; [discriminate|reflexivity].
Qed.

Lemma claim_then_process_rows (cfg : Config.Config) (t t1 : Table) (job : Job)
    (now now' nf nu : Time) (failed : bool) (r : Job) :
  FindAndLockJob t now now' = (t1, (Some job, None)) ->
  In r (fst (Worker.processJob cfg t1 job failed nf nu SQLiteStore.Runs)) ->
  State r = StateProcessing -> In r t.
Proof.
  intros H Hr Hs.
  destruct (processJob_writes cfg t1 job failed nf nu) as (job' & Hid & Hst & Hp).
  rewrite Hp in Hr. clear Hp.
  apply FindAndLockJob_some in H. destruct H as (row & _ & _ & -> & ->).
  cbn [ID] in Hid.
  unfold UpdateJob in Hr. cbn [fst ID State Attempts UpdatedAt NextRunAt
                               set_UpdatedAt] in Hr.
  rewrite Hid in Hr. unfold update_where_id in Hr.
  apply in_map_iff in Hr. destruct Hr as (r1 & <- & Hr1).
  destruct (has_id (ID row) r1) eqn:E1; [now destruct Hst|].
  apply in_map_iff in Hr1. destruct Hr1 as (r0 & <- & Hr0).
  destruct (has_id (ID row) r0) eqn:E0; [|assumption].
  unfold has_id in E0, E1. cbn [ID set_Attempts set_UpdatedAt set_State] in E1.
  congruence.
Qed.

(** When the database runs the updates of the worker, the worker leaves no
    job it has claimed in the processing state: every row that is
    processing after the turns of [Run] was in the table, the same,
    before.  (The transactions of [FindAndLockJob] may be refused.) *)
Theorem Run_leaves_none_processing (cfg : Config.Config)
    (turns : list Worker.turn) (t : Table) (r : Job) :
  Forall (fun k => Worker.update k = SQLiteStore.Runs) turns ->
  In r (Worker.Run cfg t turns) -> State r = StateProcessing -> In r t.
Proof.
  intros Hup. revert t.
  induction Hup as [|k turns Hk Hup IH]; intros t Hr Hs; [exact Hr|].
  rewrite Run_turn in Hr. destruct (Worker.done k); [exact Hr|].
  pose proof (FindAndLockJob_answers (Worker.find k) t (Worker.now_find k)
                                     (Worker.now_lock k)) as Ha.
  destruct (SQLiteStore.FindAndLockJob (Worker.find k) t (Worker.now_find k)
                                       (Worker.now_lock k))
    as [t' [[job|] [err|]]]; cbn [fst snd] in Ha; try now apply IH.
  apply IH in Hr; [|assumption]. rewrite Hk in Hr.
  exact (claim_then_process_rows cfg t t' job _ _ _ _ _ r Ha Hr Hs).
Qed.

Lemma Run_leaves_none_processing_witness :
  let job0 := mkJob "job3-fail" "non_existent_command" StatePending 0 3
                    100 100 100 in
  let stuck := mkJob "job7" "sleep 900" StateProcessing 1 3 50 60 50 in
  let locked :=
    SQLiteStore.mkTransaction SQLiteStore.Runs SQLiteStore.Runs
      (SQLiteStore.Refuses sqlite_ErrBusy) SQLiteStore.Runs in
  let turns := [Worker.mkTurn false 200 201 true 300 301
                              SQLiteStore.commits SQLiteStore.Runs;
                Worker.mkTurn false 350 351 false 360 361
                              locked SQLiteStore.Runs;
                Worker.mkTurn false 400 401 false 500 501
                              SQLiteStore.commits SQLiteStore.Runs] in
  let r := stuck in
  Forall (fun k => Worker.update k = SQLiteStore.Runs) turns /\
  In r (Worker.Run Sample.defaultCfg [job0; stuck] turns) /\
  State r = StateProcessing /\ In r [job0; stuck].
Proof.
  intros job0 stuck locked turns r.
  assert (Hup : Forall (fun k => Worker.update k = SQLiteStore.Runs) turns)
    by (repeat constructor).
  assert (Hin : In r (Worker.Run Sample.defaultCfg [job0; stuck] turns))
    by (vm_compute; right; left; reflexivity).
  split; [exact Hup|]. split; [exact Hin|]. split; [reflexivity|].
  exact (Run_leaves_none_processing Sample.defaultCfg turns [job0; stuck] r
           Hup Hin eq_refl).
Defined.

End WorkerLoop.

(** ** A claim and what the worker makes of it *)

(** On a table with its primary key, after [FindAndLockJob] has returned
    a job and [processJob] has run it: when the database runs the update,
    the row of the job is completed if the command succeeded, and if it
    failed the row is dead when the attempts of the job have reached
    max_retries and otherwise pending with next_run_at the time of the
    failure plus the delay, the attempts being those of the job claimed;
    when the database refuses the update, the row is the job as the claim
    left it, in the processing state. *)
Theorem claim_then_process (cfg : Config.Config) (a : SQLiteStore.transaction)
    (t t1 : Table) (job : Job) (now now' nf nu : Time) (failed : bool)
    (update : SQLiteStore.answer) :
  NoDup (map ID t) ->
  SQLiteStore.FindAndLockJob a t now now' = (t1, (Some job, None)) ->
  let dead := Attempts job >=? MaxRetries job in
  GetJob (fst (Worker.processJob cfg t1 job failed nf nu update)) (ID job)
  = inl (match update with
         | SQLiteStore.Runs =>
             mkJob (ID job) (Command job)
                   (if failed then if dead then StateDead else StatePending
                    else StateCompleted)
                   (Attempts job) (MaxRetries job) (CreatedAt job) nu
                   (if failed && negb dead
                    then nf + Worker.backoffDuration cfg job
                    else NextRunAt job)
         | SQLiteStore.Refuses _ => job
         end) /\
  State job = StateProcessing.
Proof.
  intros pk H dead.
  pose proof (FindAndLockJob_answers a t now now') as Ha.
  rewrite H in Ha. cbn [fst snd] in Ha. clear H. rename Ha into H.
  apply FindAndLockJob_some in H. destruct H as (row & Hin & _ & Hjob & ->).
  assert (H1 : find (has_id (ID job))
                 (update_where_id (ID row)
                    (fun r => set_Attempts
                                (set_UpdatedAt (set_State r StateProcessing) now')
                                (int_add (Attempts row) 1)) t)
               = Some job).
  { rewrite find_update_where_id by reflexivity.
    assert (Hid : ID job = ID row) by now rewrite Hjob.
    rewrite Hid, String.eqb_refl.
    pose proof (GetJob_In t row pk Hin) as Hg. unfold GetJob in Hg.
    destruct (find (has_id (ID row)) t) as [r|]; [|discriminate].
    injection Hg as ->. now rewrite Hjob. }
  set (t1 := update_where_id (ID row) _ t) in *.
  split; [|now rewrite Hjob].
  destruct update as [|err].
  - assert (Hw : forall job', ID job' = ID job ->
               GetJob (fst (fst (UpdateJob t1 job' nu))) (ID job)
               = inl (mkJob (ID job) (Command job) (State job') (Attempts job')
                            (MaxRetries job) (CreatedAt job) nu
                            (NextRunAt job'))).
    { intros job' Hid. unfold UpdateJob, GetJob. cbn [fst].
      cbn [ID State Attempts UpdatedAt NextRunAt set_UpdatedAt].
      rewrite find_update_where_id by reflexivity.
      rewrite Hid, String.eqb_refl, H1. reflexivity. }
    rewrite processJob_runs. destruct failed.
    + rewrite Hw by apply failureTransition_fields.
      subst dead. unfold Worker.failureTransition.
      destruct (Attempts job >=? MaxRetries job); reflexivity.
    + now rewrite Hw.
  - rewrite processJob_refused. unfold GetJob. now rewrite H1.
Qed.

Lemma claim_then_process_witness :
  let t := [Sample.pending "failing-job" "exit 1" 1 2 100 100] in
  let job := mkJob "failing-job" "exit 1" StateProcessing 2 2 100 301 100 in
  let t1 := [job] in
  let locked := SQLiteStore.Refuses sqlite_ErrBusy in
  NoDup (map ID t) /\
  SQLiteStore.FindAndLockJob SQLiteStore.commits t 300 301
  = (t1, (Some job, None)) /\
  (GetJob (fst (Worker.processJob Sample.defaultCfg t1 job true 400 401
                                  SQLiteStore.Runs))
          "failing-job"
   = inl (mkJob "failing-job" "exit 1" StateDead 2 2 100 401 100) /\
   State job = StateProcessing) /\
  (GetJob (fst (Worker.processJob Sample.defaultCfg t1 job true 400 401
                                  locked))
          "failing-job"
   = inl job /\
   State job = StateProcessing).
Proof.
  intros t job t1 locked.
  assert (pk : NoDup (map ID t)) by (repeat constructor; simpl; tauto).
  split; [exact pk|]. split; [reflexivity|]. split.
  - exact (claim_then_process Sample.defaultCfg SQLiteStore.commits t t1 job
             300 301 400 401 true SQLiteStore.Runs pk eq_refl).
  - exact (claim_then_process Sample.defaultCfg SQLiteStore.commits t t1 job
             300 301 400 401 true locked pk eq_refl).
Defined.

(** ** What [NewJobFromSpec] reads of a specification *)

Lemma decode_members_fields (ms : list (string * Json.value)) (p : partialJob)
    (err : option error) :
  decode_members (filter (fun m => is_field (fst m)) ms) p err
  = decode_members ms p err.
Proof.
  revert p err. induction ms as [|[key v] ms IH]; intros p err; [reflexivity|].
  cbn [filter fst]. unfold is_field.
  destruct (Json.EqualFold key "id") eqn:Ei.
  - cbn [orb decode_members]. rewrite Ei.
    destruct (Json.decode_string v (partial_ID p) err). apply IH.
  - destruct (Json.EqualFold key "command") eqn:Ec.
    + cbn [orb decode_members]. rewrite Ei, Ec.
      destruct (Json.decode_string v (partial_Command p) err). apply IH.
    + cbn [orb decode_members]. rewrite Ei, Ec. apply IH.
Qed.

(** [NewJobFromSpec] reads the members id and command of a specification
    and nothing else: the members of other keys (a state, attempts or
    max_retries among them) can be taken away without changing the
    result, and the job made is pending, with no attempts, the configured
    max_retries and the present as its time of creation. *)
Theorem NewJobFromSpec_reads_id_and_command (ms : list (string * Json.value))
    (maxRetries : Z) (uuid : string) (now : Time) :
  NewJobFromSpec (Json.WellFormed (Json.Object ms)) maxRetries uuid now
  = NewJobFromSpec
      (Json.WellFormed (Json.Object (filter (fun m => is_field (fst m)) ms)))
      maxRetries uuid now /\
  forall job,
    NewJobFromSpec (Json.WellFormed (Json.Object ms)) maxRetries uuid now
    = inl job ->
    State job = StatePending /\ Attempts job = 0 /\
    MaxRetries job = maxRetries /\ CreatedAt job = now.
Proof.
  split.
  - unfold NewJobFromSpec. cbn [Unmarshal]. now rewrite decode_members_fields.
  - intros job H. apply NewJobFromSpec_inl in H. destruct H as (p & _ & ->).
    now repeat split.
Qed.

(** ** [config set] *)

(** Whatever the key and the value, [config set] leaves the database path
    as it is and changes no field but the one the key names; when it
    returns an error the file is as it was, and when it returns none the
    file holds the two fields of the configuration in memory. *)
Theorem configSetCmd_file (cfg : Config.Config) (file : option Config.File)
    (key value : string) :
  let '(cfg', file', err) := Cmd.configSetCmd cfg file key value in
  Config.DatabasePath cfg' = Config.DatabasePath cfg /\
  (key <> "max-retries"%string ->
   Config.MaxRetries cfg' = Config.MaxRetries cfg) /\
  (key <> "backoff-base"%string ->
   Config.BackoffBase cfg' = Config.BackoffBase cfg) /\
  match err with
  | Some _ => file' = file
  | None =>
      file' = Some (Config.mkFile (Config.MaxRetries cfg')
                                  (Config.BackoffBase cfg'))
  end.
Proof.
  unfold Cmd.configSetCmd.
  destruct (String.eqb key "max-retries") eqn:Em.
  - apply String.eqb_eq in Em. subst key.
    destruct (Strconv.Atoi value) as [retries|e].
    + unfold Config.Save. cbn [Config.BackoffBase Config.MaxRetries].
      destruct (PrimFloat.is_nan (Config.BackoffBase cfg)
                || PrimFloat.is_infinity (Config.BackoffBase cfg));
        cbn [Config.DatabasePath Config.MaxRetries Config.BackoffBase];
        repeat split; congruence.
    + repeat split.
  - destruct (String.eqb key "backoff-base") eqn:Eb.
    + apply String.eqb_eq in Eb. subst key.
      destruct (Strconv.ParseFloat value) as [base|e].
      * unfold Config.Save. cbn [Config.BackoffBase Config.MaxRetries].
        destruct (PrimFloat.is_nan base || PrimFloat.is_infinity base);
          cbn [Config.DatabasePath Config.MaxRetries Config.BackoffBase];
          repeat split; congruence.
      * repeat split.
    + repeat split.
Qed.

(** ** [dlq list] and [dlq retry] *)



(** ** The delay under the default base and under base 1 *)

(** With the default base 2 in the configuration, the delay after [a]
    attempts is [2 ^ a] seconds for [a] from 0 to 33, so in that range more
    attempts give a longer delay. *)
Theorem default_backoff_doubles (cfg : Config.Config) (job1 job2 : Job) :
  Config.BackoffBase cfg = Config.DefaultBackoffBase ->
  0 <= Attempts job1 < Attempts job2 -> Attempts job2 <= 33 ->
  Worker.backoffDuration cfg job1 = 2 ^ Attempts job1 * Second /\
  Worker.backoffDuration cfg job2 = 2 ^ Attempts job2 * Second /\
  Worker.backoffDuration cfg job1 < Worker.backoffDuration cfg job2.
Proof.
  intros Hb H1 H2.
  assert (Hcfg : forall job,
             Worker.backoffDuration cfg job
             = Worker.backoffDuration
                 (Sample.cfg 0 Config.DefaultBackoffBase) job).
  { intros job. rewrite !backoffDuration_eq, Hb. reflexivity. }
  rewrite !Hcfg. split; [|split].
  - apply backoffDuration_default_base. lia.
  - apply backoffDuration_default_base. lia.
  - now apply backoffDuration_default_increasing.
Qed.

Lemma default_backoff_doubles_witness :
  let job (attempts : Z) :=
    mkJob "job3-fail" "non_existent_command" StateProcessing attempts 5
          100 301 100 in
  Worker.backoffDuration Sample.defaultCfg (job 1) = 2 * Second /\
  Worker.backoffDuration Sample.defaultCfg (job 3) = 8 * Second /\
  Worker.backoffDuration Sample.defaultCfg (job 1)
  < Worker.backoffDuration Sample.defaultCfg (job 3).
Proof.
  intros job.
  apply (default_backoff_doubles Sample.defaultCfg (job 1) (job 3)).
  - reflexivity.
  - simpl. lia.
  - simpl. lia.
Defined.

(** With base 1 in the configuration the delay is one second whatever the
    attempts. *)
Theorem backoff_base_one_is_one_second (cfg : Config.Config) (job : Job) :
  Config.BackoffBase cfg = 1%float ->
  Worker.backoffDuration cfg job = Second.
Proof.
  intros Hb. rewrite <- (backoffDuration_base_one 0 job).
  rewrite !backoffDuration_eq, Hb. reflexivity.
Qed.

Lemma backoff_base_one_is_one_second_witness :
  Worker.backoffDuration (Sample.cfg 3 1%float)
    (mkJob "job3-fail" "non_existent_command" StateProcessing 7 9 100 301 100)
  = Second.
Proof.
  apply backoff_base_one_is_one_second. reflexivity.
Defined.

(** ** [list --state] *)

Section ListCmd.

Lemma EqualFold_lower (a b : string) :
  Json.EqualFold a b = true <->
  Strconv.lower_string a = Strconv.lower_string b.
Proof.
  revert b. induction a as [|x a IH]; intros [|y b]; cbn; try easy.
  rewrite andb_true_iff, Ascii.eqb_eq, IH. split.
  - now intros [-> ->].
  - intros [= -> ->]. now split.
Qed.

Lemma state_name_lower (state : JobState) :
  Strconv.lower_string (Cmd.state_name state) = Cmd.state_name state.
Proof. now destruct state. Qed.

Lemma validState_name (state : JobState) :
  Cmd.validState (Cmd.state_name state) = Some state.
Proof. now destruct state. Qed.

Lemma validState_some (s : string) (state : JobState) :
  Cmd.validState s = Some state -> s = Cmd.state_name state.
Proof.
  unfold Cmd.validState. intros H. apply find_some in H.
  destruct H as [_ H]. apply String.eqb_eq in H. now symmetry.
Qed.

(** [list --state] takes the name of a state in any case of its letters
    and returns what [ListJobsByState] returns for the state; a text that
    is the name of no state, whatever the case, is an error. *)
Theorem listCmd_any_case (t : Table) (stateStr : string) :
  (forall state,
      Json.EqualFold stateStr (Cmd.state_name state) = true ->
      Cmd.listCmd t stateStr = (fst (ListJobsByState t state), None)) /\
  (Cmd.is_ascii stateStr = true ->
   (forall state, Json.EqualFold stateStr (Cmd.state_name state) = false) ->
   Cmd.listCmd t stateStr = ([], Some (Errorf "invalid state"))).
Proof.
  split.
  - intros state H. apply EqualFold_lower in H. rewrite state_name_lower in H.
    unfold Cmd.listCmd. now rewrite H, validState_name.
  - intros _ H. unfold Cmd.listCmd.
    destruct (Cmd.validState (Strconv.lower_string stateStr)) as [state|] eqn:E;
      [|reflexivity].
    apply validState_some in E.
    assert (Hf : Json.EqualFold stateStr (Cmd.state_name state) = true)
      by (apply EqualFold_lower; now rewrite state_name_lower).
    rewrite H in Hf. discriminate.
Qed.

Lemma listCmd_any_case_witness :
  Cmd.listCmd Sample.dlq "DEAD"
  = ([mkJob "failing-job" "exit 1" StateDead 2 2 100 400 zeroTime], None) /\
  Cmd.listCmd Sample.dlq "done" = ([], Some (Errorf "invalid state")).
Proof.
  split.
  - apply (proj1 (listCmd_any_case Sample.dlq "DEAD") StateDead). reflexivity.
  - apply (proj2 (listCmd_any_case Sample.dlq "done")); [reflexivity|].
    intros state. now destruct state.
Defined.

End ListCmd.

(** ** Claims one after the other, on sample tables *)

Lemma serial_claims_distinct_witness :
  NoDup (map ID Sample.jobs) /\
  NoDup (returned_ids
           (snd (claims Sample.jobs [(300, 301); (302, 303); (1000, 1001)]))).
Proof.
  assert (pk : NoDup (map ID Sample.jobs)).
  { repeat constructor; simpl; intuition discriminate. }
  split; [exact pk|].
  exact (serial_claims_distinct [(300, 301); (302, 303); (1000, 1001)]
           Sample.jobs pk).
Defined.

Lemma serial_claims_count_witness :
  let clock := [(300, 301); (300, 303); (300, 305)] in
  NoDup (map ID Sample.jobs) /\
  Forall (fun c : Time * Time => fst c = 300) clock /\
  List.length (returned_ids (snd (claims Sample.jobs clock)))
  = Nat.min (List.length clock)
            (List.length (filter (ready 300) Sample.jobs)).
Proof.
  intros clock.
  assert (pk : NoDup (map ID Sample.jobs)).
  { repeat constructor; simpl; intuition discriminate. }
  assert (Hc : Forall (fun c : Time * Time => fst c = 300) clock)
    by (repeat constructor).
  split; [exact pk|]. split; [exact Hc|].
  exact (serial_claims_count 300 clock Sample.jobs pk Hc).
Defined.

(** ** What every reachable table shows *)

(** In every reachable state the line of [statusCmd] for the failed state
    shows 0. *)
Theorem statusCmd_failed_is_zero (st : state) (n : Z) :
  reachable st ->
  In (StateFailed, n) (fst (Cmd.statusCmd (table st))) -> n = 0.
Proof.
  intros Hreach Hin.
  pose proof (inv_rows st (reachable_invariant st Hreach)) as Hrows.
  rewrite Forall_forall in Hrows.
  unfold Cmd.statusCmd in Hin. cbn [GetStatusSummary fst] in Hin.
  apply in_map_iff in Hin. destruct Hin as (state & [= -> <-] & _).
  rewrite lookup_fold. cbn [lookup].
  assert (H0 : rows_in (table st) StateFailed = 0).
  { unfold rows_in. rewrite filter_none; [reflexivity|].
    intros r Hr. apply JobState_eqb_neq. apply (Hrows r Hr). }
  now rewrite H0.
Qed.

Lemma statusCmd_failed_is_zero_witness :
  reachable Sample.failedOnce /\
  Cmd.statusCmd (table Sample.failedOnce)
  = ([(StatePending, 1); (StateProcessing, 0); (StateCompleted, 0);
      (StateFailed, 0); (StateDead, 0)], None) /\
  In (StateFailed, 0) (fst (Cmd.statusCmd (table Sample.failedOnce))) /\
  0 = 0.
Proof.
  assert (Hin : In (StateFailed, 0)
                   (fst (Cmd.statusCmd (table Sample.failedOnce))))
    by (do 3 right; left; reflexivity).
  split; [exact failedOnce_reachable|]. split; [reflexivity|].
  split; [exact Hin|].
  exact (statusCmd_failed_is_zero Sample.failedOnce 0 failedOnce_reachable Hin).
Defined.

(** In every reachable state no two rows have the same id: [Enqueue] is
    the only operation that adds a row, and it refuses an id that a row
    has. *)
Theorem ids_stay_unique (st : state) :
  reachable st ->
  forall a b, In a (table st) -> In b (table st) -> ID a = ID b -> a = b.
Proof.
  intros Hreach a b Ha Hb E.
  apply (primary_key_inj (table st)
           (inv_pk st (reachable_invariant st Hreach)) a b Ha Hb E).
Qed.

Lemma ids_stay_unique_witness :
  reachable Sample.failedOnce /\
  forall a b, In a (table Sample.failedOnce) -> In b (table Sample.failedOnce) ->
              ID a = ID b -> a = b.
Proof.
  split; [exact failedOnce_reachable|].
  exact (ids_stay_unique Sample.failedOnce failedOnce_reachable).
Defined.
